(** * Streaming relay of [pages/api/stream.ts] and its consumer in [pages/_app.tsx]

    A shallow embedding of the request handler that relays an upstream
    completion stream as Server-Sent Events, together with the [onmessage]
    callbacks of the consultation form that consumes it.

    JavaScript strings are sequences of UTF-16 code units, upstream chunks are
    byte arrays; the handler's effects on the response object and on the
    network are recorded, in program order, as a list of [effect]s. *)

From Stdlib Require Import Ascii String.
From Stdlib Require Strings.Byte.
From Stdlib Require Import List NArith ZArith Bool Lia.
Import ListNotations.

Set Warnings "-register-all".
Local Open Scope string_scope.
Local Open Scope N_scope.
Local Open Scope list_scope.

(** ** Texts *)

(** A JavaScript string: its UTF-16 code units. *)
Definition text := list N.

(** A chunk delivered by the upstream reader ([Uint8Array]). *)
Definition bytes := list Byte.byte.

(** An ASCII literal as a JavaScript string. *)
Fixpoint u16 (s : string) : text :=
  match s with
  | EmptyString => []
  | String c r => N_of_ascii c :: u16 r
  end.

(** The same, where an apostrophe of the literal stands for the double quote
    (code unit 34) of the JavaScript text. *)
Fixpoint u16q (s : string) : text :=
  match s with
  | EmptyString => []
  | String c r =>
      (if N_of_ascii c =? 39 then 34 else N_of_ascii c) :: u16q r
  end.

(** An ASCII literal as the bytes of its UTF-8 encoding, same convention. *)
Fixpoint b8q (s : string) : bytes :=
  match s with
  | EmptyString => []
  | String c r =>
      (if N_of_ascii c =? 39 then Byte.x22 else byte_of_ascii c) :: b8q r
  end.

Fixpoint text_eqb (a b : text) : bool :=
  match a, b with
  | [], [] => true
  | x :: a', y :: b' => (x =? y) && text_eqb a' b'
  | _, _ => false
  end.

(** ** The platform's UTF-8 decoder ([new TextDecoder("utf-8")])

    The decoder object of the Encoding Standard: the UTF-8 decoder's state
    (code point, bytes seen, bytes needed, lower and upper boundary) and the
    [TextDecoder]'s "BOM seen" flag.  The handler only ever calls
    [decode(value, { stream: true })], which keeps this state from one call
    to the next and never flushes it. *)

Record decoder := mkDecoder {
  code_point : N;
  bytes_seen : N;
  bytes_needed : N;
  lower_boundary : N;
  upper_boundary : N;
  bom_seen : bool
}.

Definition new_TextDecoder : decoder :=
  mkDecoder 0 0 0 0x80 0xBF false.

(** What the UTF-8 decoder's handler returns for one byte. *)
Inductive handled :=
| Continue (d : decoder)
| Emit (d : decoder) (scalar : N)
| DecodeError (d : decoder) (restore : bool).

Definition reset (d : decoder) : decoder :=
  mkDecoder 0 0 0 0x80 0xBF (bom_seen d).

Definition utf8_handler (d : decoder) (b : N) : handled :=
  if bytes_needed d =? 0 then
    if b <=? 0x7F then Emit d b
    else if (0xC2 <=? b) && (b <=? 0xDF) then
      Continue (mkDecoder (N.land b 0x1F) (bytes_seen d) 1
                          (lower_boundary d) (upper_boundary d) (bom_seen d))
    else if (0xE0 <=? b) && (b <=? 0xEF) then
      Continue (mkDecoder (N.land b 0xF) (bytes_seen d) 2
                          (if b =? 0xE0 then 0xA0 else lower_boundary d)
                          (if b =? 0xED then 0x9F else upper_boundary d)
                          (bom_seen d))
    else if (0xF0 <=? b) && (b <=? 0xF4) then
      Continue (mkDecoder (N.land b 0x7) (bytes_seen d) 3
                          (if b =? 0xF0 then 0x90 else lower_boundary d)
                          (if b =? 0xF4 then 0x8F else upper_boundary d)
                          (bom_seen d))
    else DecodeError d false
  else if negb ((lower_boundary d <=? b) && (b <=? upper_boundary d)) then
    DecodeError (reset d) true
  else
    let cp := N.lor (N.shiftl (code_point d) 6) (N.land b 0x3F) in
    let seen := bytes_seen d + 1 in
    if seen =? bytes_needed d then Emit (reset d) cp
    else Continue (mkDecoder cp seen (bytes_needed d) 0x80 0xBF (bom_seen d)).

(** A scalar value as UTF-16 code units. *)
Definition utf16 (c : N) : text :=
  if c <? 0x10000 then [c]
  else [0xD800 + N.shiftr (c - 0x10000) 10; 0xDC00 + N.land (c - 0x10000) 0x3FF].

(** Serialising one decoded scalar value: the first one of the stream is
    dropped when it is the byte order mark. *)
Definition serialize (d : decoder) (c : N) : decoder * text :=
  if bom_seen d then (d, utf16 c)
  else
    let d' := mkDecoder (code_point d) (bytes_seen d) (bytes_needed d)
                        (lower_boundary d) (upper_boundary d) true in
    (d', if c =? 0xFEFF then [] else utf16 c).

Definition REPLACEMENT : N := 0xFFFD.

(** One byte through the decoder.  A byte that breaks a sequence is an error
    and is then handled again, from the reset state. *)
Definition decode_byte (d : decoder) (b : N) : decoder * text :=
  match utf8_handler d b with
  | Continue d1 => (d1, [])
  | Emit d1 c => serialize d1 c
  | DecodeError d1 false => serialize d1 REPLACEMENT
  | DecodeError d1 true =>
      let (d2, t1) := serialize d1 REPLACEMENT in
      match utf8_handler d2 b with
      | Continue d3 => (d3, t1)
      | Emit d3 c => let (d4, t2) := serialize d3 c in (d4, t1 ++ t2)
      | DecodeError d3 _ =>
          let (d4, t2) := serialize d3 REPLACEMENT in (d4, t1 ++ t2)
      end
  end.

(** [decoder.decode(value, { stream: true })]. *)
Fixpoint decode (d : decoder) (value : bytes) : decoder * text :=
  match value with
  | [] => (d, [])
  | b :: r =>
      let (d1, t1) := decode_byte d (Byte.to_N b) in
      let (d2, t2) := decode d1 r in
      (d2, t1 ++ t2)
  end.

(** ** JSON values and the platform's [JSON.parse]

    [JSON.parse] is the ECMAScript built-in; it is modelled here by a lexer
    and a stack parser for the JSON grammar, both one pass over the text, so
    that the handler can be evaluated on concrete payloads. *)

(** A number literal [(-1)^neg * mantissa * 10^exp10], kept exact. *)
Record number := mkNumber { neg : bool; mantissa : N; exp10 : Z }.

Inductive json :=
| JNull
| JBool (b : bool)
| JNumber (n : number)
| JString (s : text)
| JArray (items : list json)
| JObject (members : list (text * json)).

Inductive token :=
| TLBrace | TRBrace | TLBracket | TRBracket | TColon | TComma
| TString (s : text) | TNumber (n : number) | TTrue | TFalse | TNull.

(** Where the lexer is inside a number literal. *)
Inductive num_phase :=
| NMinus | NZero | NInt | NDot | NFrac | NE | NESign | NExp.

Record num_acc := mkNum {
  n_neg : bool; n_digits : N; n_frac : Z; n_eneg : bool; n_exp : Z
}.

Inductive lexstate :=
| LStart
| LLit (rest : text) (tok : token)
| LStr (acc : text)
| LEsc (acc : text)
| LHex (acc : text) (todo : nat) (v : N)
| LNum (ph : num_phase) (a : num_acc).

Definition is_digit (c : N) : bool := (48 <=? c) && (c <=? 57).

Definition hex_value (c : N) : option N :=
  if is_digit c then Some (c - 48)
  else if (65 <=? c) && (c <=? 70) then Some (c - 55)
  else if (97 <=? c) && (c <=? 102) then Some (c - 87)
  else None.

Definition json_ws (c : N) : bool :=
  (c =? 32) || (c =? 9) || (c =? 10) || (c =? 13).

Definition finish_number (a : num_acc) : token :=
  TNumber (mkNumber (n_neg a) (n_digits a)
             ((if n_eneg a then - n_exp a else n_exp a) - n_frac a)%Z).

Definition start_step (c : N) : option (lexstate * list token) :=
  if json_ws c then Some (LStart, [])
  else if c =? 123 then Some (LStart, [TLBrace])
  else if c =? 125 then Some (LStart, [TRBrace])
  else if c =? 91 then Some (LStart, [TLBracket])
  else if c =? 93 then Some (LStart, [TRBracket])
  else if c =? 58 then Some (LStart, [TColon])
  else if c =? 44 then Some (LStart, [TComma])
  else if c =? 34 then Some (LStr [], [])
  else if c =? 116 then Some (LLit (u16 "rue") TTrue, [])
  else if c =? 102 then Some (LLit (u16 "alse") TFalse, [])
  else if c =? 110 then Some (LLit (u16 "ull") TNull, [])
  else if c =? 45 then Some (LNum NMinus (mkNum true 0 0 false 0), [])
  else if c =? 48 then Some (LNum NZero (mkNum false 0 0 false 0), [])
  else if is_digit c then Some (LNum NInt (mkNum false (c - 48) 0 false 0), [])
  else None.

Definition push_digit (a : num_acc) (c : N) (frac : bool) : num_acc :=
  mkNum (n_neg a) (10 * n_digits a + (c - 48))
        (if frac then n_frac a + 1 else n_frac a)%Z (n_eneg a) (n_exp a).

Definition push_exp (a : num_acc) (c : N) : num_acc :=
  mkNum (n_neg a) (n_digits a) (n_frac a) (n_eneg a)
        (10 * n_exp a + Z.of_N (c - 48))%Z.

(** The literal is over at [c]: emit it and lex [c] afresh. *)
Definition end_number (a : num_acc) (c : N) : option (lexstate * list token) :=
  match start_step c with
  | Some (LStart, toks) => Some (LStart, finish_number a :: toks)
  | _ => None
  end.

Definition is_e (c : N) : bool := (c =? 101) || (c =? 69).

Definition num_step (ph : num_phase) (a : num_acc) (c : N)
  : option (lexstate * list token) :=
  match ph with
  | NMinus =>
      if c =? 48 then Some (LNum NZero a, [])
      else if is_digit c then Some (LNum NInt (push_digit a c false), [])
      else None
  | NZero =>
      if c =? 46 then Some (LNum NDot a, [])
      else if is_e c then Some (LNum NE a, [])
      else end_number a c
  | NInt =>
      if is_digit c then Some (LNum NInt (push_digit a c false), [])
      else if c =? 46 then Some (LNum NDot a, [])
      else if is_e c then Some (LNum NE a, [])
      else end_number a c
  | NDot =>
      if is_digit c then Some (LNum NFrac (push_digit a c true), []) else None
  | NFrac =>
      if is_digit c then Some (LNum NFrac (push_digit a c true), [])
      else if is_e c then Some (LNum NE a, [])
      else end_number a c
  | NE =>
      if c =? 43 then Some (LNum NESign a, [])
      else if c =? 45 then
        Some (LNum NESign
                (mkNum (n_neg a) (n_digits a) (n_frac a) true (n_exp a)), [])
      else if is_digit c then Some (LNum NExp (push_exp a c), [])
      else None
  | NESign =>
      if is_digit c then Some (LNum NExp (push_exp a c), []) else None
  | NExp =>
      if is_digit c then Some (LNum NExp (push_exp a c), [])
      else end_number a c
  end.

Definition escape_char (c : N) : option N :=
  if c =? 34 then Some 34
  else if c =? 92 then Some 92
  else if c =? 47 then Some 47
  else if c =? 98 then Some 8
  else if c =? 102 then Some 12
  else if c =? 110 then Some 10
  else if c =? 114 then Some 13
  else if c =? 116 then Some 9
  else None.

Definition lex_step (st : lexstate) (c : N) : option (lexstate * list token) :=
  match st with
  | LStart => start_step c
  | LLit rest tok =>
      match rest with
      | [] => None
      | x :: rest' =>
          if c =? x then
            match rest' with
            | [] => Some (LStart, [tok])
            | _ => Some (LLit rest' tok, [])
            end
          else None
      end
  | LStr acc =>
      if c =? 34 then Some (LStart, [TString (rev acc)])
      else if c =? 92 then Some (LEsc acc, [])
      else if c <? 32 then None
      else Some (LStr (c :: acc), [])
  | LEsc acc =>
      if c =? 117 then Some (LHex acc 4%nat 0, [])
      else match escape_char c with
           | Some x => Some (LStr (x :: acc), [])
           | None => None
           end
  | LHex acc todo v =>
      match hex_value c with
      | None => None
      | Some h =>
          match todo with
          | O => None
          | S O => Some (LStr (16 * v + h :: acc), [])
          | S k => Some (LHex acc k (16 * v + h), [])
          end
      end
  | LNum ph a => num_step ph a c
  end.

Definition lex_finish (st : lexstate) : option (list token) :=
  match st with
  | LStart => Some []
  | LNum NZero a | LNum NInt a | LNum NFrac a | LNum NExp a =>
      Some [finish_number a]
  | _ => None
  end.

Fixpoint lex (st : lexstate) (s : text) : option (list token) :=
  match s with
  | [] => lex_finish st
  | c :: r =>
      match lex_step st c with
      | None => None
      | Some (st', toks) =>
          match lex st' r with
          | None => None
          | Some more => Some (toks ++ more)
          end
      end
  end.

(** The enclosing array or object under construction. *)
Inductive frame :=
| FArray (acc : list json)
| FObject (acc : list (text * json))
| FMember (acc : list (text * json)) (key : text).

Inductive mode :=
| MValue | MArrayStart | MObjectStart | MKey | MColon | MAfter (v : json).

Definition scalar_of (t : token) : option json :=
  match t with
  | TString s => Some (JString s)
  | TNumber n => Some (JNumber n)
  | TTrue => Some (JBool true)
  | TFalse => Some (JBool false)
  | TNull => Some JNull
  | _ => None
  end.

Definition value_step (stk : list frame) (t : token)
  : option (mode * list frame) :=
  match t with
  | TLBracket => Some (MArrayStart, FArray [] :: stk)
  | TLBrace => Some (MObjectStart, FObject [] :: stk)
  | _ => match scalar_of t with
         | Some v => Some (MAfter v, stk)
         | None => None
         end
  end.

Definition key_step (stk : list frame) (t : token)
  : option (mode * list frame) :=
  match t, stk with
  | TString k, FObject acc :: rest => Some (MColon, FMember acc k :: rest)
  | _, _ => None
  end.

Definition parse_step (m : mode) (stk : list frame) (t : token)
  : option (mode * list frame) :=
  match m with
  | MValue => value_step stk t
  | MArrayStart =>
      match t, stk with
      | TRBracket, FArray _ :: rest => Some (MAfter (JArray []), rest)
      | _, _ => value_step stk t
      end
  | MObjectStart =>
      match t, stk with
      | TRBrace, FObject _ :: rest => Some (MAfter (JObject []), rest)
      | _, _ => key_step stk t
      end
  | MKey => key_step stk t
  | MColon =>
      match t with
      | TColon => Some (MValue, stk)
      | _ => None
      end
  | MAfter v =>
      match stk, t with
      | FArray acc :: rest, TComma => Some (MValue, FArray (v :: acc) :: rest)
      | FArray acc :: rest, TRBracket =>
          Some (MAfter (JArray (rev (v :: acc))), rest)
      | FMember acc k :: rest, TComma =>
          Some (MKey, FObject ((k, v) :: acc) :: rest)
      | FMember acc k :: rest, TRBrace =>
          Some (MAfter (JObject (rev ((k, v) :: acc))), rest)
      | _, _ => None
      end
  end.

Fixpoint parse_tokens (m : mode) (stk : list frame) (ts : list token)
  : option json :=
  match ts with
  | [] => match m, stk with
          | MAfter v, [] => Some v
          | _, _ => None
          end
  | t :: r =>
      match parse_step m stk t with
      | None => None
      | Some (m', stk') => parse_tokens m' stk' r
      end
  end.

(** [JSON.parse(s)]; [None] when it throws a [SyntaxError]. *)
Definition JSON_parse (s : text) : option json :=
  match lex LStart s with
  | None => None
  | Some ts => parse_tokens MValue [] ts
  end.

(** ** Property access on parsed values *)

(** The members of an object literal; a repeated key keeps its last value. *)
Fixpoint lookup (key : text) (members : list (text * json)) : option json :=
  match members with
  | [] => None
  | (k, v) :: r =>
      match lookup key r with
      | Some v' => Some v'
      | None => if text_eqb k key then Some v else None
      end
  end.

(** [v.name] for the names the program reads ([choices], [delta], [content],
    [chunk]): own properties of objects only, since arrays, strings, numbers
    and booleans have none of these; [None] is [undefined]. *)
Definition prop (v : json) (name : string) : option json :=
  match v with
  | JObject members => lookup (u16 name) members
  | _ => None
  end.

(** [v[0]]. *)
Definition index0 (v : json) : option json :=
  match v with
  | JArray items => hd_error items
  | JString (c :: _) => Some (JString [c])
  | JObject members => lookup (u16 "0") members
  | _ => None
  end.

Definition nullish (v : option json) : bool :=
  match v with
  | None | Some JNull => true
  | _ => false
  end.

(** Whether the literal denotes the double 0: it is 0, or no more than half
    of the least positive double, [2^-1075]. *)
Definition number_is_zero (n : number) : bool :=
  (mantissa n =? 0)
  || ((exp10 n <? 0)%Z
      && (mantissa n * 2 ^ 1075 <=? 10 ^ Z.to_N (- exp10 n))).

(** ToBoolean; [undefined] is [None]. *)
Definition truthy (v : option json) : bool :=
  match v with
  | None | Some JNull => false
  | Some (JBool b) => b
  | Some (JNumber n) => negb (number_is_zero n)
  | Some (JString s) => match s with [] => false | _ => true end
  | Some (JArray _) | Some (JObject _) => true
  end.

Inductive completion (A : Type) :=
| Normal (a : A)
| Throw.
Arguments Normal {A} a.
Arguments Throw {A}.

(** [parsed.choices?.[0]?.delta?.content]: reading [choices] of [null]
    throws a [TypeError], each [?.] stops the chain at a nullish value. *)
Definition delta_content (parsed : json) : completion (option json) :=
  match parsed with
  | JNull => Throw
  | _ =>
      let choices := prop parsed "choices" in
      match (if nullish choices then None else choices) with
      | None => Normal None
      | Some cs =>
          let first := index0 cs in
          match (if nullish first then None else first) with
          | None => Normal None
          | Some f =>
              let delta := prop f "delta" in
              match (if nullish delta then None else delta) with
              | None => Normal None
              | Some dl => Normal (prop dl "content")
              end
          end
      end
  end.

(** ** String operations of the handler *)

(** ECMAScript WhiteSpace and LineTerminator, what [trim] removes. *)
Definition is_space (c : N) : bool :=
  ((9 <=? c) && (c <=? 13)) || (c =? 32) || (c =? 0xA0) || (c =? 0x1680)
  || ((0x2000 <=? c) && (c <=? 0x200A)) || (c =? 0x2028) || (c =? 0x2029)
  || (c =? 0x202F) || (c =? 0x205F) || (c =? 0x3000) || (c =? 0xFEFF).

Fixpoint trimStart (s : text) : text :=
  match s with
  | [] => []
  | c :: r => if is_space c then trimStart r else s
  end.

Definition trim (s : text) : text := rev (trimStart (rev (trimStart s))).

Definition LF : N := 10.

Definition cons_head (c : N) (parts : list text) : list text :=
  match parts with
  | [] => [[c]]
  | p :: ps => (c :: p) :: ps
  end.

(** [s.split("\n\n")]: the pieces between the successive occurrences of two
    line feeds, found from the left. *)
Fixpoint split_blank (s : text) : list text :=
  match s with
  | [] => [[]]
  | c :: r =>
      if c =? LF then
        match r with
        | c2 :: r2 =>
            if c2 =? LF then [] :: split_blank r2
            else cons_head c (split_blank r)
        | [] => [[c]]
        end
      else cons_head c (split_blank r)
  end.

Fixpoint strip_prefix (p s : text) : option text :=
  match p, s with
  | [], _ => Some s
  | x :: p', y :: s' => if x =? y then strip_prefix p' s' else None
  | _ :: _, [] => None
  end.

Definition marker : text := u16 "data: ".

(** [line.match(re)] for the handler's pattern, the marker followed by a
    greedy group of any characters, line terminators included: the capture
    group of the leftmost match, which runs to the end of the text; [None]
    when there is no match. *)
Fixpoint match_data (line : text) : option text :=
  match strip_prefix marker line with
  | Some rest => Some rest
  | None =>
      match line with
      | [] => None
      | _ :: r => match_data r
      end
  end.

Definition SENTINEL : text := u16 "[DONE]".

(** ** The handler of [pages/api/stream.ts] *)

(** What the handler writes to the response, one constructor per shape of
    [res.write] in the source; [JSON.stringify] is left symbolic. *)
Inductive sse :=
| sse_error (msg : text)    (* data: JSON.stringify({ error: msg }), blank line *)
| sse_chunk (v : json)      (* data: JSON.stringify({ chunk: v }), blank line *)
| sse_event (name : string) (* event: name, end of line *)
| sse_data (payload : string). (* data: payload, blank line *)

(** What the handler does to the response and to the network, in program
    order.  The body of the upstream request, the prompt built from the
    form fields, has no part in what is relayed and is not recorded. *)
Inductive effect :=
| setHeader (name value : string)
| status (code : N)
| write (w : sse)
| end_
| fetch_call (url : string) (bearer : text).

(** A settled promise; a rejection carries [String(err)]. *)
Inductive outcome (A : Type) :=
| Resolved (a : A)
| Rejected (err : text).
Arguments Resolved {A} a.
Arguments Rejected {A} err.

(** One [reader.read()] that is not the end of the stream: its [value],
    which may be [undefined].  The end of the list is the read with
    [done: true]. *)
Definition read := outcome (option bytes).

(** The upstream response: [response.ok], [response.body] as the reads its
    reader delivers, and what [response.text()] settles to. *)
Record response := mkResponse {
  ok : bool;
  body : option (list read);
  text_ : outcome text
}.

(** What the handler finds around it: the key in [process.env] and what
    the call to [fetch] settles to. *)
Record env := mkEnv {
  OPENAI_API_KEY : option text;
  fetch : outcome response
}.

Record request := mkRequest { method : text }.

Definition write_done : list effect :=
  [write (sse_event "done"); write (sse_data "[DONE]"); end_].

Definition write_error (msg : text) : list effect :=
  [write (sse_error msg); end_].

(** The payload of one part: the part is trimmed, skipped when empty or when
    the pattern does not match, and the capture group is trimmed. *)
Definition payload (part : text) : option text :=
  let line := trim part in
  match line with
  | [] => None
  | _ =>
      match match_data line with
      | None => None
      | Some m1 => Some (trim m1)
      end
  end.

(** The [try] block: what is written for a payload that is not the
    sentinel. *)
Definition forward (data : text) : list effect :=
  match JSON_parse data with
  | None => [write (sse_chunk (JString data))]
  | Some parsed =>
      match delta_content parsed with
      | Throw => [write (sse_chunk (JString data))]
      | Normal delta =>
          match delta with
          | Some v => if truthy delta then [write (sse_chunk v)] else []
          | None => []
          end
      end
  end.

(** The body of the [for] loop on one part; the flag tells that the handler
    returned. *)
Definition handle_part (part : text) : list effect * bool :=
  match payload part with
  | None => ([], false)
  | Some data =>
      if text_eqb data SENTINEL then (write_done, true)
      else (forward data, false)
  end.

Fixpoint handle_parts (parts : list text) : list effect * bool :=
  match parts with
  | [] => ([], false)
  | p :: r =>
      let (w, returned) := handle_part p in
      if returned then (w, true)
      else let (w', returned') := handle_parts r in (w ++ w', returned')
  end.

(** One turn of the [while] loop. *)
Inductive iteration :=
| Next (d : decoder) (buffer : text) (w : list effect)
| Return (w : list effect).

Definition iterate (d : decoder) (buffer : text) (r : read) : iteration :=
  match r with
  | Rejected err => Return (write_error err)
  | Resolved None => Next d buffer []
  | Resolved (Some value) =>
      let (d', t) := decode d value in
      let buffer := buffer ++ t in
      let parts := split_blank buffer in
      let buffer := last parts [] in
      let (w, returned) := handle_parts (removelast parts) in
      if returned then Return w else Next d' buffer w
  end.

(** The [while] loop and, when the stream ends without the sentinel, the
    done message written after it. *)
Fixpoint read_loop (d : decoder) (buffer : text) (reads : list read)
  : list effect :=
  match reads with
  | [] => write_done
  | r :: rest =>
      match iterate d buffer r with
      | Return w => w
      | Next d' buffer' w => w ++ read_loop d' buffer' rest
      end
  end.

(** The decoder and the buffer at the head of the loop once [reads] have
    been consumed, if the handler is still in the loop. *)
Fixpoint loop_state (d : decoder) (buffer : text) (reads : list read)
  : option (decoder * text) :=
  match reads with
  | [] => Some (d, buffer)
  | r :: rest =>
      match iterate d buffer r with
      | Return _ => None
      | Next d' buffer' _ => loop_state d' buffer' rest
      end
  end.

Definition headers : list effect :=
  [setHeader "Content-Type" "text/event-stream";
   setHeader "Cache-Control" "no-cache, no-transform";
   setHeader "Connection" "keep-alive"].

Definition OPENAI_URL : string := "https://api.openai.com/v1/chat/completions".

(** The handler: the key is checked, then the method, then the upstream is
    called; an unusable response is reported with its text, a usable one is
    relayed by the loop.  The [catch] block reports what was thrown.  This
    is the handler on a request body from which the prompt can be built;
    [handler_with_body] below adds the body and the conversion that can
    throw before the upstream is called. *)
Definition handler (e : env) (req : request) : list effect :=
  headers ++
  match OPENAI_API_KEY e with
  | None | Some [] => write_error (u16 "OPENAI_API_KEY not set")
  | Some key =>
      if negb (text_eqb (method req) (u16 "POST")) then
        status 405 :: write_error (u16 "Method Not Allowed")
      else
        fetch_call OPENAI_URL key ::
        match fetch e with
        | Rejected err => write_error err
        | Resolved response =>
            match ok response, body response with
            | true, Some reads => read_loop new_TextDecoder [] reads
            | _, _ =>
                match text_ response with
                | Resolved t => write_error t
                | Rejected err => write_error err
                end
            end
        end
  end.

(** ** Outbound events *)

Inductive OutboundEvent :=
| chunk (v : json)
| done
| error (msg : text).

(** The events a consumer of the written stream receives.  The [event:] line
    only names the message that the following [data:] line completes. *)
Fixpoint outbound (tr : list effect) : list OutboundEvent :=
  match tr with
  | [] => []
  | write (sse_chunk v) :: r => chunk v :: outbound r
  | write (sse_error m) :: r => error m :: outbound r
  | write (sse_data p) :: r =>
      if String.eqb p "[DONE]" then done :: outbound r else outbound r
  | _ :: r => outbound r
  end.

Definition is_terminal (ev : OutboundEvent) : bool :=
  match ev with
  | chunk _ => false
  | done | error _ => true
  end.

Definition fetches (tr : list effect) : nat :=
  length (filter (fun x => match x with fetch_call _ _ => true | _ => false end) tr).

Definition status_of (tr : list effect) : N :=
  fold_left (fun s x => match x with status c => c | _ => s end) tr 200.

(** ** The consumer in [pages/_app.tsx]

    The state the callbacks passed to [fetchEventSource] act on: the local
    [buffer] of [handleSubmit], the [output] and [loading] state of the
    form, and whether the [AbortController] was aborted. *)

Record consumer := mkConsumer {
  c_buffer : text;
  output : text;
  loading : bool;
  aborted : bool
}.

(** The state [handleSubmit] sets up before it opens the stream. *)
Definition submitted : consumer := mkConsumer [] [] true false.

Definition is_string (v : option json) : bool :=
  match v with
  | Some (JString _) => true
  | _ => false
  end.

Definition append_output (st : consumer) (t : text) : consumer :=
  let buffer := c_buffer st ++ t in
  mkConsumer buffer buffer (loading st) (aborted st).

(** [onmessage(ev)], on the [data] field of the message. *)
Definition onmessage (st : consumer) (data : text) : consumer :=
  match JSON_parse (match data with [] => u16 "{}" | _ => data end) with
  | Some parsed =>
      if truthy (Some parsed) && is_string (prop parsed "chunk") then
        match prop parsed "chunk" with
        | Some (JString c) => append_output st c
        | _ => st
        end
      else st
  | None => append_output st data
  end.

Definition onclose (st : consumer) : consumer :=
  mkConsumer (c_buffer st) (output st) false (aborted st).

Definition onerror (st : consumer) : consumer :=
  mkConsumer (c_buffer st) (output st) false true.

(** ** Notions used to state the properties *)

(** Whether two line feeds in a row occur in the text. *)
Fixpoint has_blank (s : text) : bool :=
  match s with
  | [] => false
  | c :: r =>
      match r with
      | c2 :: _ => ((c =? LF) && (c2 =? LF)) || has_blank r
      | [] => false
      end
  end.

Definition BLANK : text := [LF; LF].

(** The parts that are followed by a separator, put back together. *)
Definition join_frames (frames : list text) : text :=
  concat (map (fun f => f ++ BLANK) frames).

(** The bytes the reader delivers before it fails or ends. *)
Fixpoint upstream_bytes (reads : list read) : bytes :=
  match reads with
  | [] => []
  | Resolved (Some value) :: rest => value ++ upstream_bytes rest
  | Resolved None :: rest => upstream_bytes rest
  | Rejected _ :: _ => []
  end.

(** The error of the first read that fails. *)
Fixpoint upstream_failure (reads : list read) : option text :=
  match reads with
  | [] => None
  | Resolved _ :: rest => upstream_failure rest
  | Rejected err :: _ => Some err
  end.

(** The frames of a text: its parts that a separator completes. *)
Definition frames (t : text) : list text := removelast (split_blank t).

(** The rest of a text after its last separator. *)
Definition residue (t : text) : text := last (split_blank t) [].

(** The environment of a session whose upstream answers with a readable
    stream: the key is set, [fetch] resolves to an [ok] response whose body
    delivers [reads]. *)
Definition streaming (key : text) (reads : list read) (diag : outcome text)
  : env :=
  mkEnv (Some key) (Resolved (mkResponse true (Some reads) diag)).

Definition POST : request := mkRequest (u16 "POST").

Definition LFLF : bytes := [Byte.x0a; Byte.x0a].

(** An upstream stream of three frames: the deltas A and B, then the
    sentinel. *)
Definition stream_A_B_DONE : bytes :=
  b8q "data: {'choices':[{'delta':{'content':'A'}}]}" ++ LFLF ++
  b8q "data: {'choices':[{'delta':{'content':'B'}}]}" ++ LFLF ++
  b8q "data: [DONE]" ++ LFLF.

(** The byte of a number below 256. *)
Definition byte_of_N (n : N) : Byte.byte :=
  match Byte.of_N n with
  | Some b => b
  | None => Byte.x00
  end.

(** A Unicode scalar value: a code point that is not a surrogate. *)
Definition scalar (c : N) : bool :=
  (c <? 0xD800) || ((0xDFFF <? c) && (c <=? 0x10FFFF)).

(** The UTF-8 encoding of a scalar value, as the upstream sends it. *)
Definition utf8_units (c : N) : list N :=
  if c <? 0x80 then [c]
  else if c <? 0x800 then [0xC0 + c / 64; 0x80 + c mod 64]
  else if c <? 0x10000 then
    [0xE0 + c / 4096; 0x80 + (c / 64) mod 64; 0x80 + c mod 64]
  else
    [0xF0 + c / 262144; 0x80 + (c / 4096) mod 64; 0x80 + (c / 64) mod 64;
     0x80 + c mod 64].

Definition utf8_encode (c : N) : bytes := map byte_of_N (utf8_units c).

(** The decoder between two characters. *)
Definition idle (bom : bool) : decoder := mkDecoder 0 0 0 0x80 0xBF bom.

(** A run of chunk messages. *)
Definition write_chunks (cs : list json) : list effect :=
  map (fun v => write (sse_chunk v)) cs.

(** What ends a session: the done message or an error message, and the end
    of the response. *)
Inductive closing : list effect -> Prop :=
| closing_done : closing write_done
| closing_error (msg : text) : closing (write_error msg).

(** The effects before the first write: headers, status, the upstream
    request. *)
Definition preamble (x : effect) : bool :=
  match x with
  | setHeader _ _ | status _ | fetch_call _ _ => true
  | write _ | end_ => false
  end.

(** [pre] is the text before the leftmost occurrence of the marker in [s],
    and [post] the text after it. *)
Definition leftmost (s pre post : text) : Prop :=
  s = pre ++ marker ++ post
  /\ forall pre' post', s = pre' ++ marker ++ post' ->
       (length pre <= length pre')%nat.

(** The lines of a text. *)
Fixpoint lines (s : text) : list text :=
  match s with
  | [] => [[]]
  | c :: r => if c =? LF then [] :: lines r else cons_head c (lines r)
  end.

Fixpoint first_data_line (ls : list text) : option text :=
  match ls with
  | [] => None
  | l :: r =>
      match strip_prefix (u16 "data:") l with
      | Some rest => Some (trim rest)
      | None => first_data_line r
      end
  end.

(** The extraction in the words of the specification: the lines of the
    frame are matched against the prefix made of the field name and its
    colon, and the payload is the trimmed remainder of the first line that
    has it. *)
Definition spec_payload (frame : text) : option text :=
  first_data_line (lines frame).

Definition METHOD_NOT_ALLOWED : text := u16 "Method Not Allowed".

Definition KEY_NOT_SET : text := u16 "OPENAI_API_KEY not set".

(** The [data] of the message the handler writes when the key is not set,
    that is [JSON.stringify] of the object whose [error] is that text. *)
Definition error_message_data : text :=
  u16q "{'error':'OPENAI_API_KEY not set'}".

(** The text a session has decoded from its reads. *)
Definition decoded (reads : list read) : text :=
  snd (decode new_TextDecoder (upstream_bytes reads)).

(** A stream that ends inside its second frame. *)
Definition stream_A_then_cut : bytes :=
  b8q "data: {'choices':[{'delta':{'content':'A'}}]}" ++ LFLF ++
  b8q "data: {'choices':[{'delta':{'content':'B'}}]}".

(** ** [JSON.stringify] on strings

    The handler writes [JSON.stringify] of an object with one string
    member.  ECMAScript's QuoteJSONString walks the code points of the
    string: the short escapes, a [\u] escape for the other control
    characters and for unpaired surrogates, the character itself
    otherwise. *)

Definition hex_digit (d : N) : N := if d <? 10 then 48 + d else 87 + d.

Definition unicode_escape (c : N) : text :=
  [92; 117; hex_digit (c / 4096); hex_digit ((c / 256) mod 16);
   hex_digit ((c / 16) mod 16); hex_digit (c mod 16)].

Definition is_lead (c : N) : bool := (0xD800 <=? c) && (c <=? 0xDBFF).

Definition is_trail (c : N) : bool := (0xDC00 <=? c) && (c <=? 0xDFFF).

(** A code unit that is not half of a surrogate pair. *)
Definition quote_unit (c : N) : text :=
  if c =? 8 then [92; 98]
  else if c =? 9 then [92; 116]
  else if c =? 10 then [92; 110]
  else if c =? 12 then [92; 102]
  else if c =? 13 then [92; 114]
  else if c =? 34 then [92; 34]
  else if c =? 92 then [92; 92]
  else if (c <? 32) || is_lead c || is_trail c then unicode_escape c
  else [c].

Fixpoint quote_units (s : text) : text :=
  match s with
  | [] => []
  | c :: r =>
      if is_lead c then
        match r with
        | c2 :: r2 =>
            if is_trail c2 then c :: c2 :: quote_units r2
            else quote_unit c ++ quote_units r
        | [] => quote_unit c
        end
      else quote_unit c ++ quote_units r
  end.

Definition QuoteJSONString (s : text) : text := 34 :: quote_units s ++ [34].

(** [JSON.stringify({ key: value })] for a string [value]. *)
Definition stringify_member (key : string) (value : text) : text :=
  u16 "{" ++ QuoteJSONString (u16 key) ++ u16 ":" ++ QuoteJSONString value
    ++ u16 "}".

(** A JavaScript string proper: every code unit is below 2^16. *)
Definition well_formed (s : text) : bool := forallb (fun c => c <? 65536) s.

(** ** From the response to the consumer

    What [fetchEventSource] hands to [onmessage] for one write of the
    handler: a [data:] line followed by a blank line completes a message,
    whose [data] is the text after the field name; an [event:] line only
    names the message to come.  The text of a chunk that is not a string is
    not modelled. *)
Inductive dispatch :=
| NoMessage
| Message (data : text)
| NotModelled.

Definition dispatched (w : sse) : dispatch :=
  match w with
  | sse_error m => Message (stringify_member "error" m)
  | sse_chunk (JString t) => Message (stringify_member "chunk" t)
  | sse_chunk _ => NotModelled
  | sse_event _ => NoMessage
  | sse_data p => Message (u16 p)
  end.

Fixpoint messages (tr : list effect) : option (list text) :=
  match tr with
  | [] => Some []
  | write w :: r =>
      match dispatched w, messages r with
      | Message d, Some ds => Some (d :: ds)
      | NoMessage, Some ds => Some ds
      | _, _ => None
      end
  | _ :: r => messages r
  end.

(** The form after a stream that delivered the messages and was closed. *)
Definition consume (datas : list text) : consumer :=
  onclose (fold_left onmessage datas submitted).

(** The token estimate the form displays:
    [Math.max(100, Math.min(800, Math.ceil(output.length / 4)))]; on a
    length [n] the ceiling of [n / 4] is [(n + 3) / 4] in whole numbers. *)
Definition approx_tokens (output : text) : N :=
  N.max 100 (N.min 800 ((N.of_nat (length output) + 3) / 4)).

(** Whether [process.env] has a usable key. *)
Definition key_configured (e : env) : bool :=
  match OPENAI_API_KEY e with
  | None | Some [] => false
  | Some _ => true
  end.

(** A text without its leading byte order mark. *)
Definition strip_bom (cs : list N) : list N :=
  match cs with
  | c :: r => if c =? 0xFEFF then r else cs
  | [] => []
  end.

(** Effects on the response body only. *)
Definition response_only (tr : list effect) : bool :=
  forallb (fun x => match x with write _ | end_ => true | _ => false end) tr.

(** A frame that carries the content delta [a]: its payload is a JSON
    object whose [choices] has a first element whose [delta] has the string
    [a] as its [content]; the other members are free. *)
Definition carries_delta (frame a : text) : Prop :=
  exists data parsed cs first dl,
    payload frame = Some data
    /\ JSON_parse data = Some parsed
    /\ prop parsed "choices" = Some cs
    /\ index0 cs = Some first
    /\ prop first "delta" = Some dl
    /\ prop dl "content" = Some (JString a).

(** The frames A, B and the sentinel as the provider sends them, with the
    other members of its chunk objects. *)
Definition provider_frame_A : text :=
  u16q "data: {'id':'c1','object':'chat.completion.chunk','choices':[{'index':0,'delta':{'content':'A'},'finish_reason':null}]}".

Definition provider_frame_B : text :=
  u16q "data: {'id':'c1','object':'chat.completion.chunk','choices':[{'index':0,'delta':{'content':'B'},'finish_reason':null}]}".

Definition provider_stream : bytes :=
  b8q "data: {'id':'c1','object':'chat.completion.chunk','choices':[{'index':0,'delta':{'content':'A'},'finish_reason':null}]}"
    ++ LFLF ++
  b8q "data: {'id':'c1','object':'chat.completion.chunk','choices':[{'index':0,'delta':{'content':'B'},'finish_reason':null}]}"
    ++ LFLF ++
  b8q "data: [DONE]" ++ LFLF.

(** ** The prompt built from the request body

    Before it calls the upstream the handler reads [patient_name],
    [date_of_visit] and [notes] from [req.body || {}] and puts each of them,
    or its placeholder when it is falsy, into a template literal.  The text
    of the prompt has no part in what is relayed; what matters is that the
    conversion to a string can throw, inside the [try]. *)

(** Whether ToString throws on a value parsed from JSON.  An object with an
    own [toString] member does: the member is not a function, and [valueOf]
    does not give a primitive either.  An array does when one of its
    elements, other than [null], does. *)
Fixpoint to_string_throws (v : json) : bool :=
  match v with
  | JObject members =>
      match lookup (u16 "toString") members with
      | Some _ => true
      | None => false
      end
  | JArray items =>
      existsb (fun x => match x with
                        | JNull => false
                        | _ => to_string_throws x
                        end) items
  | _ => false
  end.

(** A field destructured from [req.body || {}]; [None] is [undefined]. *)
Definition body_field (body : option json) (name : string) : option json :=
  match body with
  | Some (JObject members) => lookup (u16 name) members
  | _ => None
  end.

(** Whether the slot of a field throws: a falsy field is replaced by its
    placeholder, a truthy one is converted. *)
Definition slot_throws (v : option json) : bool :=
  truthy v && match v with
              | Some x => to_string_throws x
              | None => false
              end.

Definition prompt_throws (body : option json) : bool :=
  slot_throws (body_field body "patient_name")
  || slot_throws (body_field body "date_of_visit")
  || slot_throws (body_field body "notes").

(** [String(err)] of the error thrown by the conversion. *)
Definition CONVERSION_ERROR : text :=
  u16 "TypeError: Cannot convert object to primitive value".

(** The handler on a request with its body.  [handler] above is this
    handler on the bodies from which the prompt can be built. *)
Definition handler_with_body (e : env) (req : request) (req_body : option json)
  : list effect :=
  headers ++
  match OPENAI_API_KEY e with
  | None | Some [] => write_error (u16 "OPENAI_API_KEY not set")
  | Some key =>
      if negb (text_eqb (method req) (u16 "POST")) then
        status 405 :: write_error (u16 "Method Not Allowed")
      else if prompt_throws req_body then write_error CONVERSION_ERROR
      else
        fetch_call OPENAI_URL key ::
        match fetch e with
        | Rejected err => write_error err
        | Resolved response =>
            match ok response, body response with
            | true, Some reads => read_loop new_TextDecoder [] reads
            | _, _ =>
                match text_ response with
                | Resolved t => write_error t
                | Rejected err => write_error err
                end
            end
        end
  end.

(** * Properties *)

(** ** Texts *)

Lemma text_eqb_eq (a b : text) : text_eqb a b = true <-> a = b.
Proof.
  revert b; induction a as [|x a IH]; intros [|y b]; simpl;
    try (split; congruence).
  rewrite andb_true_iff, N.eqb_eq, IH. split.
  - intros [-> ->]; reflexivity.
  - intros H; injection H; auto.
Qed.

Lemma text_eqb_refl (a : text) : text_eqb a a = true.
Proof. apply text_eqb_eq; reflexivity. Qed.

Lemma text_eqb_neq (a b : text) : a <> b -> text_eqb a b = false.
Proof.
  intros H. destruct (text_eqb a b) eqn:E; [|reflexivity].
  apply text_eqb_eq in E. contradiction.
Qed.

(** ** Splitting at blank lines *)

Lemma split_blank_cons (c : N) (r : text) :
  split_blank (c :: r) =
    match r with
    | c2 :: r2 =>
        if (c =? LF) && (c2 =? LF) then [] :: split_blank r2
        else cons_head c (split_blank r)
    | [] => cons_head c (split_blank r)
    end.
Proof.
  simpl. destruct (c =? LF); destruct r as [|c2 r2]; simpl; try reflexivity.
Qed.

Lemma split_blank_not_nil (s : text) : split_blank s <> [].
Proof.
  destruct s as [|c r]; [discriminate|].
  rewrite split_blank_cons.
  destruct r as [|c2 r2].
  - simpl; discriminate.
  - destruct ((c =? LF) && (c2 =? LF)); [discriminate|].
    destruct (split_blank (c2 :: r2)); discriminate.
Qed.

(** Induction that follows the recursion of [split_blank]. *)
Lemma split_blank_ind (P : text -> Prop) :
  P [] ->
  (forall r, P r -> P (LF :: LF :: r)) ->
  (forall c r, (c <> LF \/ hd 0 r <> LF) -> P r -> P (c :: r)) ->
  forall s, P s.
Proof.
  intros Hnil Hsep Hchar s.
  assert (H : P s /\ forall c, P (c :: s)); [|apply H].
  induction s as [|c2 r IH].
  - split; [assumption|]. intros c. apply Hchar; [right; simpl; discriminate|assumption].
  - destruct IH as [IHr IHc]. split; [apply IHc|].
    intros c. destruct (N.eq_dec c LF) as [->|Hc].
    + destruct (N.eq_dec c2 LF) as [->|Hc2].
      * apply Hsep, IHr.
      * apply Hchar; [right; assumption|apply IHc].
    + apply Hchar; [left; assumption|apply IHc].
Qed.

Lemma split_blank_sep (r : text) :
  split_blank (LF :: LF :: r) = [] :: split_blank r.
Proof. reflexivity. Qed.

Lemma split_blank_char (c : N) (r : text) :
  c <> LF \/ hd 0 r <> LF ->
  split_blank (c :: r) = cons_head c (split_blank r).
Proof.
  intros H. rewrite split_blank_cons. destruct r as [|c2 r2]; [reflexivity|].
  simpl in H.
  destruct (N.eqb_spec c LF); [|reflexivity].
  destruct (N.eqb_spec c2 LF); [|reflexivity].
  destruct H; contradiction.
Qed.

Lemma cons_head_not_nil (c : N) (l : list text) : cons_head c l <> [].
Proof. destruct l; discriminate. Qed.

Lemma removelast_cons_head (c : N) (l : list text) :
  l <> [] ->
  removelast (cons_head c l) =
    match removelast l with
    | [] => []
    | fs => cons_head c fs
    end.
Proof.
  destruct l as [|p [|q ps]]; intros H; try contradiction; reflexivity.
Qed.

Lemma last_cons_head (c : N) (l : list text) :
  l <> [] ->
  last (cons_head c l) [] =
    match removelast l with
    | [] => c :: last l []
    | _ => last l []
    end.
Proof.
  destruct l as [|p [|q ps]]; intros H; try contradiction; reflexivity.
Qed.

Lemma hd_split_blank (c : N) (r : text) :
  c <> LF -> exists p ps, split_blank (c :: r) = (c :: p) :: ps.
Proof.
  intros H. rewrite split_blank_char by (left; exact H).
  destruct (split_blank r) as [|p ps]; cbn; eauto.
Qed.

(** Splitting a text that continues: the parts completed so far stay, the
    last one is split again with what follows. *)
Lemma split_blank_app (a b : text) :
  split_blank (a ++ b) =
    removelast (split_blank a) ++ split_blank (last (split_blank a) [] ++ b).
Proof.
  induction a as [|r IH|c r Hc IH] using split_blank_ind.
  - reflexivity.
  - simpl app. rewrite !split_blank_sep, IH.
    pose proof (split_blank_not_nil r) as Hne.
    destruct (split_blank r) as [|p ps]; [contradiction|]. reflexivity.
  - destruct r as [|c2 r2].
    + assert (E : split_blank [c] = [[c]])
        by (simpl; destruct (c =? LF); reflexivity).
      rewrite E. reflexivity.
    + pose proof (split_blank_not_nil (c2 :: r2)) as Hne.
      rewrite (split_blank_char c (c2 :: r2) Hc).
      change ((c :: c2 :: r2) ++ b) with (c :: (c2 :: r2) ++ b).
      rewrite (split_blank_char c ((c2 :: r2) ++ b)) by exact Hc.
      rewrite IH.
      rewrite removelast_cons_head, last_cons_head by assumption.
      destruct (removelast (split_blank (c2 :: r2))) as [|f fs] eqn:Efs.
      * rewrite app_nil_l.
        change ((c :: last (split_blank (c2 :: r2)) []) ++ b)
          with (c :: last (split_blank (c2 :: r2)) [] ++ b).
        symmetry. apply split_blank_char.
        destruct Hc as [Hc|Hc]; [left; assumption|right].
        cbn [hd] in Hc.
        destruct (hd_split_blank c2 r2 Hc) as (p & ps & Hh).
        rewrite Hh in Efs |- *.
        destruct ps; [|discriminate Efs]. exact Hc.
      * reflexivity.
Qed.

Lemma join_frames_cons (f : text) (fs : list text) :
  join_frames (f :: fs) = f ++ BLANK ++ join_frames fs.
Proof. unfold join_frames. cbn [map concat]. rewrite <- app_assoc. reflexivity. Qed.

Lemma split_blank_join (s : text) :
  join_frames (removelast (split_blank s)) ++ last (split_blank s) [] = s.
Proof.
  induction s as [|r IH|c r Hc IH] using split_blank_ind.
  - reflexivity.
  - rewrite split_blank_sep.
    pose proof (split_blank_not_nil r) as Hne.
    destruct (split_blank r) as [|p ps] eqn:E; [contradiction|].
    change (removelast ([] :: p :: ps)) with ([] :: removelast (p :: ps)).
    change (last ([] :: p :: ps) []) with (last (p :: ps) []).
    rewrite join_frames_cons. cbn [app BLANK]. rewrite IH. reflexivity.
  - pose proof (split_blank_not_nil r) as Hne.
    rewrite (split_blank_char c r Hc).
    rewrite removelast_cons_head, last_cons_head by assumption.
    destruct (removelast (split_blank r)) as [|f fs].
    + cbn [join_frames map concat app] in *. rewrite IH. reflexivity.
    + cbn [cons_head]. rewrite join_frames_cons in *.
      rewrite <- !app_assoc in *. cbn [app]. rewrite IH. reflexivity.
Qed.

Lemma has_blank_cons (c : N) (r : text) :
  has_blank (c :: r) = ((c =? LF) && (hd 0 r =? LF) && negb (match r with [] => true | _ => false end)) || has_blank r.
Proof. destruct r as [|c2 r2]; simpl; [rewrite andb_false_r|rewrite andb_true_r]; reflexivity. Qed.

Lemma has_blank_char (c : N) (r : text) :
  c <> LF \/ hd 0 r <> LF -> has_blank (c :: r) = has_blank r.
Proof.
  intros H. rewrite has_blank_cons.
  destruct (N.eqb_spec c LF); [|reflexivity].
  destruct (N.eqb_spec (hd 0 r) LF); [|reflexivity].
  destruct H; contradiction.
Qed.

(** A text without separator is a single part. *)
Lemma split_blank_whole (s : text) :
  has_blank s = false -> split_blank s = [s].
Proof.
  induction s as [|r IH|c r Hc IH] using split_blank_ind; intros H.
  - reflexivity.
  - discriminate.
  - rewrite has_blank_char in H by assumption.
    rewrite split_blank_char, IH by assumption. reflexivity.
Qed.

(** No part contains a separator. *)
Lemma split_blank_parts (s : text) :
  Forall (fun p => has_blank p = false) (split_blank s).
Proof.
  induction s as [|r IH|c r Hc IH] using split_blank_ind.
  - repeat constructor.
  - rewrite split_blank_sep. constructor; [reflexivity|assumption].
  - rewrite (split_blank_char c r Hc).
    pose proof (split_blank_not_nil r) as Hne.
    destruct (split_blank r) as [|p ps] eqn:E; [contradiction|].
    inversion IH as [|? ? Hp Hps]; subst. constructor; [|assumption].
    rewrite has_blank_char; [assumption|].
    destruct Hc as [Hc|Hc]; [left; assumption|].
    destruct r as [|c2 r2];
      [cbn in E; injection E as <- <-; right; cbn; discriminate|].
    right. cbn [hd] in Hc.
    destruct (hd_split_blank c2 r2 Hc) as (p' & ps' & Hh).
    rewrite E in Hh. injection Hh as -> _. exact Hc.
Qed.

Lemma last_split_blank (s : text) : has_blank (last (split_blank s) []) = false.
Proof.
  pose proof (split_blank_parts s) as H.
  pose proof (split_blank_not_nil s) as Hne.
  induction (split_blank s) as [|p [|q ps] IH]; [contradiction|..].
  - inversion H; assumption.
  - inversion H; subst. apply IH; [assumption|discriminate].
Qed.

(** ** The decoder is fed, not restarted *)

Lemma decode_app (d : decoder) (a b : bytes) :
  decode d (a ++ b) =
    let (d1, t1) := decode d a in
    let (d2, t2) := decode d1 b in
    (d2, t1 ++ t2).
Proof.
  revert d; induction a as [|x a IH]; intros d.
  - cbn [app decode]. destruct (decode d b); reflexivity.
  - cbn [app decode]. destruct (decode_byte d (Byte.to_N x)) as [d1 t1].
    rewrite IH. destruct (decode d1 a) as [d2 t2].
    destruct (decode d2 b) as [d3 t3]. rewrite app_assoc. reflexivity.
Qed.

(** ** The loop over the parts *)

Lemma handle_parts_app (a b : list text) :
  handle_parts (a ++ b) =
    let (w, returned) := handle_parts a in
    if returned then (w, true)
    else let (w', returned') := handle_parts b in (w ++ w', returned').
Proof.
  induction a as [|p a IH].
  - cbn [app handle_parts]. destruct (handle_parts b); reflexivity.
  - cbn [app handle_parts]. destruct (handle_part p) as [w [|]]; [reflexivity|].
    rewrite IH. destruct (handle_parts a) as [w1 [|]]; [reflexivity|].
    destruct (handle_parts b) as [w2 r2]. rewrite app_assoc. reflexivity.
Qed.

Lemma last_append (A : Type) (l l' : list A) (x : A) :
  l' <> [] -> last (l ++ l') x = last l' x.
Proof.
  intros H. induction l as [|y l IH]; [reflexivity|].
  cbn [app]. rewrite <- IH.
  destruct (l ++ l') eqn:E; [|reflexivity].
  apply app_eq_nil in E. destruct E; contradiction.
Qed.

Lemma frames_app (a b : text) :
  frames (a ++ b) = frames a ++ frames (residue a ++ b).
Proof.
  unfold frames, residue. rewrite split_blank_app.
  apply removelast_app, split_blank_not_nil.
Qed.

Lemma residue_app (a b : text) : residue (a ++ b) = residue (residue a ++ b).
Proof.
  unfold residue. rewrite split_blank_app.
  apply last_append, split_blank_not_nil.
Qed.

Lemma frames_whole (b : text) : has_blank b = false -> frames b = [].
Proof. intros H. unfold frames. rewrite split_blank_whole by assumption. reflexivity. Qed.

Lemma residue_whole (b : text) : has_blank b = false -> residue b = b.
Proof. intros H. unfold residue. rewrite split_blank_whole by assumption. reflexivity. Qed.

Lemma has_blank_residue (t : text) : has_blank (residue t) = false.
Proof. apply last_split_blank. Qed.

(** What the loop writes depends on the bytes read, not on how the reads cut
    them: the frames of the decoded text are handled in order, up to the
    sentinel; otherwise the first failed read is reported, or the end of the
    stream. *)
Lemma read_loop_spec (reads : list read) :
  forall d b, has_blank b = false ->
  read_loop d b reads =
    let (w, returned) :=
      handle_parts (frames (b ++ snd (decode d (upstream_bytes reads)))) in
    if returned then w
    else w ++ match upstream_failure reads with
              | Some err => write_error err
              | None => write_done
              end.
Proof.
  induction reads as [|[[value|]|err] rest IH]; intros d b Hb.
  - cbn. rewrite app_nil_r, frames_whole by assumption. reflexivity.
  - cbn [read_loop iterate upstream_bytes upstream_failure].
    rewrite decode_app. destruct (decode d value) as [d1 t1].
    destruct (decode d1 (upstream_bytes rest)) as [d2 t2] eqn:E2.
    cbn [snd]. rewrite app_assoc, frames_app, handle_parts_app.
    fold (frames (b ++ t1)). fold (residue (b ++ t1)).
    destruct (handle_parts (frames (b ++ t1))) as [w [|]]; [reflexivity|].
    rewrite IH by apply has_blank_residue. rewrite E2. cbn [snd].
    destruct (handle_parts (frames (residue (b ++ t1) ++ t2))) as [w' [|]];
      [reflexivity|].
    rewrite app_assoc. reflexivity.
  - cbn [read_loop iterate upstream_bytes upstream_failure]. cbn [app].
    apply IH, Hb.
  - cbn. rewrite app_nil_r, frames_whole by assumption. reflexivity.
Qed.

(** The state the loop is in after the reads: it has not returned, the
    decoder has seen all the bytes, and the buffer is the residue of the
    decoded text. *)
Lemma loop_state_spec (reads : list read) :
  forall d b, has_blank b = false ->
  loop_state d b reads =
    let (d', t) := decode d (upstream_bytes reads) in
    match upstream_failure reads, snd (handle_parts (frames (b ++ t))) with
    | None, false => Some (d', residue (b ++ t))
    | _, _ => None
    end.
Proof.
  induction reads as [|[[value|]|err] rest IH]; intros d b Hb.
  - cbn. rewrite app_nil_r, frames_whole, residue_whole by assumption.
    reflexivity.
  - cbn [loop_state iterate upstream_bytes upstream_failure].
    rewrite decode_app. destruct (decode d value) as [d1 t1].
    destruct (decode d1 (upstream_bytes rest)) as [d2 t2] eqn:E2.
    rewrite app_assoc, (residue_app (b ++ t1) t2), frames_app,
      handle_parts_app.
    fold (frames (b ++ t1)). fold (residue (b ++ t1)).
    destruct (handle_parts (frames (b ++ t1))) as [w [|]].
    + cbn [snd]. destruct (upstream_failure rest); reflexivity.
    + rewrite IH by apply has_blank_residue. rewrite E2.
      destruct (handle_parts (frames (residue (b ++ t1) ++ t2))) as [w' r'].
      reflexivity.
  - cbn [loop_state iterate upstream_bytes upstream_failure]. apply IH, Hb.
  - cbn. destruct (handle_parts (frames (b ++ []))) as [w [|]]; reflexivity.
Qed.

(** ** Sessions that reach the read loop *)

Lemma handler_streaming (key : text) (reads : list read) (diag : outcome text) :
  key <> [] ->
  handler (streaming key reads diag) POST =
    headers ++ fetch_call OPENAI_URL key :: read_loop new_TextDecoder [] reads.
Proof.
  intros H. destruct key as [|k key]; [contradiction|]. reflexivity.
Qed.

Lemma outbound_app (a b : list effect) :
  outbound (a ++ b) = outbound a ++ outbound b.
Proof.
  induction a as [|x a IH]; [reflexivity|].
  cbn [app outbound].
  destruct x as [| |[m|v|n|p]| |]; cbn [app]; try assumption;
    try (rewrite IH; reflexivity).
  destruct (String.eqb p "[DONE]"); cbn [app]; rewrite IH; reflexivity.
Qed.

Lemma JSON_parse_SENTINEL : JSON_parse SENTINEL = None.
Proof. reflexivity. Qed.

Lemma prop_object (v : json) (name : string) (x : json) :
  prop v name = Some x -> exists members, v = JObject members.
Proof. destruct v; try discriminate. eauto. Qed.

(** A frame that carries a non-empty content delta is relayed as one chunk
    with that text. *)
Lemma handle_part_delta (frame a : text) :
  carries_delta frame a -> a <> [] ->
  handle_part frame = ([write (sse_chunk (JString a))], false).
Proof.
  intros (data & parsed & cs & first & dl & Hp & Hj & Hc & Hi & Hd & Ht) Ha.
  unfold handle_part. rewrite Hp.
  rewrite text_eqb_neq
    by (intros ->; rewrite JSON_parse_SENTINEL in Hj; discriminate).
  unfold forward. rewrite Hj.
  assert (E : delta_content parsed = Normal (Some (JString a))).
  { destruct (prop_object _ _ _ Hc) as [ms ->].
    unfold delta_content. rewrite Hc.
    destruct cs; try discriminate; cbn [nullish]; rewrite Hi;
      destruct (prop_object _ _ _ Hd) as [ms' ->]; cbn [nullish];
      rewrite Hd; destruct (prop_object _ _ _ Ht) as [ms'' ->];
      cbn [nullish]; rewrite Ht; reflexivity. }
  rewrite E. destruct a; [contradiction|reflexivity].
Qed.

(** C1. When the frames of the upstream stream are a frame that carries the
    content delta A, a frame that carries B and a frame whose payload is the
    sentinel, whatever the other members of the frames, however the reads
    cut the bytes and whatever follows the sentinel, the events sent are
    chunk A, chunk B and done, in this order, and nothing else.  This holds
    for any two non-empty deltas in the place of A and B. *)
Theorem C1_relay_chunks_then_done (key : text) (reads : list read)
    (diag : outcome text) (fa fb fs : text) (after : list text)
    (a b : text) :
  key <> [] -> a <> [] -> b <> [] ->
  carries_delta fa a -> carries_delta fb b -> payload fs = Some SENTINEL ->
  frames (decoded reads) = fa :: fb :: fs :: after ->
  outbound (handler (streaming key reads diag) POST) =
    [chunk (JString a); chunk (JString b); done].
Proof.
  intros Hkey Ha Hb Hfa Hfb Hfs Hframes.
  rewrite handler_streaming by assumption.
  rewrite outbound_app. cbn [outbound headers app].
  rewrite read_loop_spec by reflexivity. fold (decoded reads).
  cbn [app]. rewrite Hframes. cbn [handle_parts].
  rewrite (handle_part_delta fa a), (handle_part_delta fb b) by assumption.
  unfold handle_part at 1. rewrite Hfs, text_eqb_refl.
  reflexivity.
Qed.

Lemma C1_relay_chunks_then_done_witness :
  outbound
    (handler
       (streaming (u16 "sk-test")
          [Resolved (Some (firstn 100 provider_stream)); Resolved None;
           Resolved (Some (skipn 100 provider_stream))]
          (Resolved []))
       POST) =
    [chunk (JString (u16 "A")); chunk (JString (u16 "B")); done].
Proof.
  apply (C1_relay_chunks_then_done _ _ _ provider_frame_A provider_frame_B
           (u16 "data: [DONE]") []);
    try discriminate; try reflexivity.
  - do 5 eexists. repeat split; reflexivity.
  - do 5 eexists. repeat split; reflexivity.
Defined.

(** The stream of three bare frames is one such stream. *)
Example relay_bare_frames (key : text) (reads : list read)
    (diag : outcome text) :
  key <> [] ->
  upstream_bytes reads = stream_A_B_DONE ->
  outbound (handler (streaming key reads diag) POST) =
    [chunk (JString (u16 "A")); chunk (JString (u16 "B")); done].
Proof.
  intros Hkey Hbytes.
  rewrite handler_streaming by assumption.
  rewrite outbound_app. cbn [outbound headers app].
  rewrite read_loop_spec by reflexivity. rewrite Hbytes.
  vm_compute. reflexivity.
Qed.




(** ** Characters cut by a read *)

Ltac lia_div := zify; Z.to_euclidean_division_equations; lia.

Lemma lor_shiftl6 (a r : N) : r < 64 -> N.lor (N.shiftl a 6) r = a * 64 + r.
Proof.
  intros H.
  assert (E : N.land (N.shiftl a 6) r = 0).
  { apply N.bits_inj. intros i. rewrite N.land_spec, N.bits_0.
    destruct (N.lt_ge_cases i 6) as [Hi|Hi].
    - rewrite N.shiftl_spec_low by assumption. reflexivity.
    - assert (Hr : N.testbit r i = false).
      { destruct (N.eq_dec r 0) as [->|Hr0]; [apply N.bits_0|].
        apply N.bits_above_log2. apply N.log2_lt_pow2; [lia|].
        apply N.lt_le_trans with (2 ^ 6); [exact H|].
        apply N.pow_le_mono_r; lia. }
      rewrite Hr. apply andb_false_r. }
  rewrite <- N.lxor_lor by exact E.
  rewrite <- N.add_nocarry_lxor by exact E.
  rewrite N.shiftl_mul_pow2. reflexivity.
Qed.

Lemma land_low (b : N) (k : N) : N.land b (N.ones k) = b mod 2 ^ k.
Proof. apply N.land_ones. Qed.

Lemma to_N_byte_of_N (n : N) : n < 256 -> Byte.to_N (byte_of_N n) = n.
Proof.
  intros H. unfold byte_of_N.
  destruct (Byte.of_N n) as [b|] eqn:E.
  - apply Byte.to_of_N. exact E.
  - apply Byte.of_N_None_iff in E. lia.
Qed.

Ltac cmp :=
  repeat match goal with
  | |- context [?x <=? ?y] => destruct (N.leb_spec x y); try lia
  | |- context [?x =? ?y] => destruct (N.eqb_spec x y); try lia
  end.

Lemma handler_ascii (bom : bool) (b : N) :
  b <= 0x7F -> utf8_handler (idle bom) b = Emit (idle bom) b.
Proof. intros H. unfold utf8_handler, idle; cbn. cmp. reflexivity. Qed.

Lemma handler_lead2 (bom : bool) (b : N) :
  0xC2 <= b <= 0xDF ->
  utf8_handler (idle bom) b = Continue (mkDecoder (b mod 32) 0 1 0x80 0xBF bom).
Proof.
  intros H. unfold utf8_handler, idle; cbn [bytes_needed bytes_seen lower_boundary upper_boundary bom_seen code_point].
  change (0 =? 0) with true. cbv iota.
  change 0x1F with (N.ones 5). rewrite land_low. 
  cmp; reflexivity.
Qed.

Ltac unfold_handler :=
  unfold utf8_handler, idle, reset;
  cbn [bytes_needed bytes_seen lower_boundary upper_boundary bom_seen code_point].

Lemma handler_lead3 (bom : bool) (b : N) :
  0xE0 <= b <= 0xEF ->
  utf8_handler (idle bom) b =
    Continue (mkDecoder (b mod 16) 0 2
                (if b =? 0xE0 then 0xA0 else 0x80)
                (if b =? 0xED then 0x9F else 0xBF) bom).
Proof.
  intros H. unfold_handler. change (0 =? 0) with true. cbv iota.
  change 0xF with (N.ones 4). rewrite land_low.
  destruct (N.leb_spec b 0x7F); [lia|].
  destruct (N.leb_spec 0xC2 b); [|lia].
  destruct (N.leb_spec b 0xDF); [lia|].
  destruct (N.leb_spec 0xE0 b); [|lia].
  destruct (N.leb_spec b 0xEF); [|lia].
  reflexivity.
Qed.

Lemma handler_lead4 (bom : bool) (b : N) :
  0xF0 <= b <= 0xF4 ->
  utf8_handler (idle bom) b =
    Continue (mkDecoder (b mod 8) 0 3
                (if b =? 0xF0 then 0x90 else 0x80)
                (if b =? 0xF4 then 0x8F else 0xBF) bom).
Proof.
  intros H. unfold_handler. change (0 =? 0) with true. cbv iota.
  change 0x7 with (N.ones 3). rewrite land_low.
  destruct (N.leb_spec b 0x7F); [lia|].
  destruct (N.leb_spec 0xC2 b); [|lia].
  destruct (N.leb_spec b 0xDF); [lia|].
  destruct (N.leb_spec 0xE0 b); [|lia].
  destruct (N.leb_spec b 0xEF); [lia|].
  destruct (N.leb_spec 0xF0 b); [|lia].
  destruct (N.leb_spec b 0xF4); [|lia].
  reflexivity.
Qed.

Lemma handler_continuation (cp seen needed lower upper : N) (bom : bool) (b : N) :
  needed <> 0 -> lower <= b <= upper ->
  utf8_handler (mkDecoder cp seen needed lower upper bom) b =
    if seen + 1 =? needed then Emit (idle bom) (cp * 64 + b mod 64)
    else Continue (mkDecoder (cp * 64 + b mod 64) (seen + 1) needed
                     0x80 0xBF bom).
Proof.
  intros Hn H. unfold_handler.
  destruct (N.eqb_spec needed 0); [contradiction|].
  destruct (N.leb_spec lower b); [|lia].
  destruct (N.leb_spec b upper); [|lia].
  cbn [andb negb].
  change 0x3F with (N.ones 6). rewrite land_low.
  rewrite lor_shiftl6 by (apply N.mod_lt; discriminate).
  reflexivity.
Qed.

(** Decoding the whole encoding of a scalar value, from between two
    characters, yields that value and leaves the decoder between two
    characters. *)
Lemma decode_char (bom : bool) (c : N) :
  scalar c = true ->
  decode (idle bom) (utf8_encode c) = serialize (idle bom) c.
Proof.
  unfold scalar. intros Hc.
  assert (Hr : c < 0xD800 \/ 0xDFFF < c <= 0x10FFFF).
  { apply orb_true_iff in Hc. destruct Hc as [Hc|Hc].
    - apply N.ltb_lt in Hc. left; exact Hc.
    - apply andb_true_iff in Hc. destruct Hc as [H1 H2].
      apply N.ltb_lt in H1. apply N.leb_le in H2. right; split; assumption. }
  clear Hc. unfold utf8_encode, utf8_units.
  destruct (N.ltb_spec c 0x80) as [H1|H1].
  { cbn [map decode]. rewrite to_N_byte_of_N by lia.
    unfold decode_byte. rewrite handler_ascii by lia.
    destruct (serialize (idle bom) c). cbn [app]. rewrite ?app_nil_r. reflexivity. }
  destruct (N.ltb_spec c 0x800) as [H2|H2].
  { cbn [map decode]. rewrite !to_N_byte_of_N by lia_div.
    unfold decode_byte at 1. rewrite handler_lead2 by lia_div.
    unfold decode_byte. rewrite handler_continuation by (try discriminate; lia_div).
    change (0 + 1 =? 1) with true. cbv iota.
    replace ((0xC0 + c / 64) mod 32 * 64 + (0x80 + c mod 64) mod 64) with c by lia_div.
    destruct (serialize (idle bom) c). cbn [app]. rewrite ?app_nil_r. reflexivity. }
  destruct (N.ltb_spec c 0x10000) as [H3|H3].
  { cbn [map decode]. rewrite !to_N_byte_of_N by lia_div.
    unfold decode_byte at 1. rewrite handler_lead3 by lia_div.
    unfold decode_byte at 1. rewrite handler_continuation.
    2: discriminate.
    2: { destruct (N.eqb_spec (0xE0 + c / 4096) 0xE0);
         destruct (N.eqb_spec (0xE0 + c / 4096) 0xED); lia_div. }
    change (0 + 1 =? 2) with false. cbv iota.
    unfold decode_byte. rewrite handler_continuation by (try discriminate; lia_div).
    change (0 + 1 + 1 =? 2) with true. cbv iota.
    replace (((0xE0 + c / 4096) mod 16 * 64 + (0x80 + (c / 64) mod 64) mod 64) * 64
             + (0x80 + c mod 64) mod 64) with c by lia_div.
    destruct (serialize (idle bom) c). cbn [app]. rewrite ?app_nil_r. reflexivity. }
  { cbn [map decode]. rewrite !to_N_byte_of_N by lia_div.
    unfold decode_byte at 1. rewrite handler_lead4 by lia_div.
    unfold decode_byte at 1. rewrite handler_continuation.
    2: discriminate.
    2: { destruct (N.eqb_spec (0xF0 + c / 262144) 0xF0);
         destruct (N.eqb_spec (0xF0 + c / 262144) 0xF4); lia_div. }
    change (0 + 1 =? 3) with false. cbv iota.
    unfold decode_byte at 1. rewrite handler_continuation by (try discriminate; lia_div).
    change (0 + 1 + 1 =? 3) with false. cbv iota.
    unfold decode_byte. rewrite handler_continuation by (try discriminate; lia_div).
    change (0 + 1 + 1 + 1 =? 3) with true. cbv iota.
    replace ((((0xF0 + c / 262144) mod 8 * 64 + (0x80 + (c / 4096) mod 64) mod 64) * 64
              + (0x80 + (c / 64) mod 64) mod 64) * 64
             + (0x80 + c mod 64) mod 64) with c by lia_div.
    destruct (serialize (idle bom) c). cbn [app]. rewrite ?app_nil_r. reflexivity. }
Qed.

Lemma serialize_idle (bom : bool) (c : N) :
  bom = true \/ c <> 0xFEFF -> serialize (idle bom) c = (idle true, utf16 c).
Proof.
  intros H. unfold serialize, idle; cbn [bom_seen code_point bytes_seen bytes_needed lower_boundary upper_boundary].
  destruct bom; [reflexivity|].
  destruct H as [H|H]; [discriminate|].
  destruct (N.eqb_spec c 0xFEFF); [contradiction|reflexivity].
Qed.

(** After a well-formed text the decoder is between two characters: the
    states [idle] are those a well-formed stream puts the decoder in. *)
Lemma decode_scalars (bom : bool) (cs : list N) :
  forallb scalar cs = true ->
  fst (decode (idle bom) (flat_map utf8_encode cs)) =
    idle (bom || match cs with [] => false | _ => true end).
Proof.
  revert bom; induction cs as [|c cs IH]; intros bom H.
  - cbn. rewrite orb_false_r. reflexivity.
  - cbn [forallb] in H. apply andb_true_iff in H. destruct H as [Hc Hcs].
    cbn [flat_map]. rewrite decode_app, decode_char by assumption.
    assert (E : fst (serialize (idle bom) c) = idle true).
    { unfold serialize, idle. cbn. destruct bom; reflexivity. }
    destruct (serialize (idle bom) c) as [d1 t1]. cbn [fst] in E. subst d1.
    specialize (IH true Hcs).
    destruct (decode (idle true) (flat_map utf8_encode cs)) as [d2 t2].
    cbn [fst] in *. rewrite IH, orb_true_r. reflexivity.
Qed.

Example new_TextDecoder_idle : new_TextDecoder = idle false.
Proof. reflexivity. Qed.

Lemma has_blank_app (b t : text) :
  has_blank b = false -> Forall (fun x => x <> LF) t ->
  has_blank (b ++ t) = false.
Proof.
  intros Hb Ht. induction b as [|x b IH].
  - cbn [app]. induction Ht as [|y t Hy Ht IH]; [reflexivity|].
    rewrite has_blank_char by (left; exact Hy). exact IH.
  - cbn [app]. rewrite has_blank_cons in Hb |- *.
    apply orb_false_iff in Hb. destruct Hb as [H1 H2].
    rewrite IH by exact H2. rewrite orb_false_r.
    destruct b as [|y b].
    + cbn [app]. destruct Ht as [|z t Hz Ht]; cbn [hd].
      * rewrite andb_false_r. reflexivity.
      * destruct (N.eqb_spec z LF); [contradiction|].
        rewrite andb_false_r. reflexivity.
    + exact H1.
Qed.

Lemma utf16_no_LF (c : N) : 0x80 <= c -> Forall (fun x => x <> LF) (utf16 c).
Proof.
  intros H. unfold utf16, LF. destruct (c <? 0x10000).
  - constructor; [lia|constructor].
  - repeat constructor; lia.
Qed.

(** C3 (amended). A character of two or more bytes whose encoding is cut
    between two reads, at any position, is decoded to the original
    character: the handler goes on as if that character had been appended
    to its buffer, and writes nothing meanwhile.  This holds from any state
    between two characters, for every scalar value except a byte order mark
    U+FEFF that is the first character of the stream, which the decoder
    drops. *)
Theorem C3_character_across_reads (c : N) (k : nat) (bom : bool)
    (buffer : text) (rest : list read) :
  scalar c = true -> 0x80 <= c -> bom = true \/ c <> 0xFEFF ->
  has_blank buffer = false ->
  let first := Resolved (Some (firstn k (utf8_encode c))) in
  let second := Resolved (Some (skipn k (utf8_encode c))) in
  loop_state (idle bom) buffer [first; second] =
    Some (idle true, buffer ++ utf16 c)
  /\ read_loop (idle bom) buffer (first :: second :: rest) =
       read_loop (idle true) (buffer ++ utf16 c) rest.
Proof.
  intros Hs Hc Hbom Hb first second.
  assert (Hd : decode (idle bom) (utf8_encode c) = (idle true, utf16 c))
    by (rewrite decode_char, serialize_idle by assumption; reflexivity).
  assert (Hb' : has_blank (buffer ++ utf16 c) = false)
    by (apply has_blank_app; [assumption|apply utf16_no_LF; assumption]).
  split.
  - rewrite loop_state_spec by assumption. unfold first, second.
    cbn [upstream_bytes upstream_failure].
    rewrite app_nil_r, firstn_skipn, Hd.
    rewrite frames_whole, residue_whole by assumption. reflexivity.
  - rewrite !read_loop_spec by assumption. unfold first, second.
    cbn [upstream_bytes upstream_failure].
    rewrite app_assoc, firstn_skipn, decode_app, Hd.
    destruct (decode (idle true) (upstream_bytes rest)) as [d2 t2].
    cbn [snd]. rewrite app_assoc. reflexivity.
Qed.

Lemma C3_character_across_reads_witness :
  loop_state (idle false) (u16 "data: ")
    [Resolved (Some [Byte.xe2; Byte.x82]); Resolved (Some [Byte.xac])] =
    Some (idle true, u16 "data: " ++ [0x20AC])
  /\ read_loop (idle false) (u16 "data: ")
       [Resolved (Some [Byte.xe2; Byte.x82]); Resolved (Some [Byte.xac])] =
     read_loop (idle true) (u16 "data: " ++ [0x20AC]) [].
Proof.
  apply (C3_character_across_reads 0x20AC 2 false (u16 "data: ") []).
  - reflexivity.
  - lia.
  - right; discriminate.
  - reflexivity.
Defined.

(** The claim C3 as stated fails for a leading byte order mark: cut after
    its first byte, it leaves the buffer empty. *)
Lemma C3_counterexample_leading_bom :
  let enc := utf8_encode 0xFEFF in
  scalar 0xFEFF = true /\ 0x80 <= 0xFEFF
  /\ enc = [Byte.xef; Byte.xbb; Byte.xbf]
  /\ loop_state new_TextDecoder []
       [Resolved (Some (firstn 1 enc)); Resolved (Some (skipn 1 enc))] =
     Some (idle true, [])
  /\ [] ++ utf16 0xFEFF <> @nil N.
Proof.
  repeat split; try reflexivity; try discriminate.
Qed.

(** ** Terminal events *)

Lemma outbound_write_chunks (cs : list json) :
  outbound (write_chunks cs) = map chunk cs.
Proof.
  induction cs as [|v cs IH]; [reflexivity|].
  change (outbound (write_chunks (v :: cs)))
    with (chunk v :: outbound (write_chunks cs)).
  rewrite IH. reflexivity.
Qed.

Lemma write_chunks_app (a b : list json) :
  write_chunks (a ++ b) = write_chunks a ++ write_chunks b.
Proof. apply map_app. Qed.

Lemma forward_chunks (data : text) : exists cs, forward data = write_chunks cs.
Proof.
  unfold forward.
  destruct (JSON_parse data) as [parsed|];
    [|exists [JString data]; reflexivity].
  destruct (delta_content parsed) as [[v|]|];
    [|exists []; reflexivity|exists [JString data]; reflexivity].
  destruct (truthy (Some v)); [exists [v]|exists []]; reflexivity.
Qed.

Lemma handle_part_shape (part : text) :
  handle_part part = (write_done, true)
  \/ exists cs, handle_part part = (write_chunks cs, false).
Proof.
  unfold handle_part. destruct (payload part) as [data|];
    [|right; exists []; reflexivity].
  destruct (text_eqb data SENTINEL); [left; reflexivity|].
  destruct (forward_chunks data) as [cs E]. right; exists cs. rewrite E.
  reflexivity.
Qed.

Lemma handle_parts_shape (parts : list text) :
  exists cs,
    handle_parts parts = (write_chunks cs, false)
    \/ handle_parts parts = (write_chunks cs ++ write_done, true).
Proof.
  induction parts as [|p parts [cs IH]].
  - exists []. left; reflexivity.
  - cbn [handle_parts].
    destruct (handle_part_shape p) as [E|[c E]]; rewrite E.
    + exists []. right; reflexivity.
    + exists (c ++ cs). rewrite write_chunks_app.
      destruct IH as [IH|IH]; rewrite IH; [left|right]; [reflexivity|].
      rewrite app_assoc. reflexivity.
Qed.

Lemma read_loop_shape (reads : list read) (d : decoder) (buffer : text) :
  exists cs fin,
    read_loop d buffer reads = write_chunks cs ++ fin /\ closing fin.
Proof.
  revert d buffer; induction reads as [|r rest IH]; intros d buffer.
  - exists [], write_done. split; [reflexivity|constructor].
  - cbn [read_loop]. destruct r as [[value|]|err]; cbn [iterate].
    + destruct (decode d value) as [d1 t1].
      destruct (handle_parts_shape
                  (removelast (split_blank (buffer ++ t1)))) as [cs [E|E]];
        rewrite E.
      * destruct (IH d1 (last (split_blank (buffer ++ t1)) []))
          as (cs' & fin & E' & Hfin).
        exists (cs ++ cs'), fin. rewrite E', write_chunks_app, app_assoc.
        split; [reflexivity|assumption].
      * exists cs, write_done. split; [reflexivity|constructor].
    + destruct (IH d buffer) as (cs & fin & E & Hfin).
      exists cs, fin. split; assumption.
    + exists [], (write_error err). split; [reflexivity|constructor].
Qed.

Lemma handler_shape (e : env) (req : request) :
  exists pre cs fin,
    handler e req = pre ++ write_chunks cs ++ fin
    /\ forallb preamble pre = true /\ closing fin.
Proof.
  unfold handler.
  destruct (OPENAI_API_KEY e) as [[|k key]|].
  1, 3: exists headers, [], (write_error (u16 "OPENAI_API_KEY not set"));
    repeat split; constructor.
  destruct (negb (text_eqb (method req) (u16 "POST"))).
  { exists (headers ++ [status 405]), [], (write_error (u16 "Method Not Allowed")).
    repeat split; constructor. }
  destruct (fetch e) as [resp|err].
  2: { exists (headers ++ [fetch_call OPENAI_URL (k :: key)]), [], (write_error err).
       repeat split; constructor. }
  destruct (ok resp), (body resp) as [reads|].
  1: { destruct (read_loop_shape reads new_TextDecoder []) as (cs & fin & E & Hfin).
       exists (headers ++ [fetch_call OPENAI_URL (k :: key)]), cs, fin.
       rewrite E. repeat split; assumption. }
  all: destruct (text_ resp) as [t|err];
    [exists (headers ++ [fetch_call OPENAI_URL (k :: key)]), [], (write_error t)
    |exists (headers ++ [fetch_call OPENAI_URL (k :: key)]), [], (write_error err)];
    repeat split; constructor.
Qed.

Lemma outbound_preamble (pre : list effect) :
  forallb preamble pre = true -> outbound pre = [].
Proof.
  induction pre as [|x pre IH]; [reflexivity|].
  cbn [forallb]. intros H. apply andb_true_iff in H. destruct H as [Hx H].
  destruct x; try discriminate; cbn [outbound]; auto.
Qed.

Lemma not_end_preamble (pre : list effect) :
  forallb preamble pre = true -> ~ In end_ pre.
Proof.
  intros H Hin. rewrite forallb_forall in H. apply H in Hin. discriminate.
Qed.

Lemma not_end_write_chunks (cs : list json) : ~ In end_ (write_chunks cs).
Proof.
  unfold write_chunks. rewrite in_map_iff. intros (v & E & _). discriminate.
Qed.

(** The handler at the first sentinel frame: it has written what the frames
    before give, writes the done message and ends. *)
Lemma handler_at_sentinel (key : text) (diag : outcome text)
    (reads : list read) (before after : list text) (part : text) :
  key <> [] ->
  payload part = Some SENTINEL ->
  snd (handle_parts before) = false ->
  frames (decoded reads) = before ++ part :: after ->
  handler (streaming key reads diag) POST =
    headers ++ fetch_call OPENAI_URL key ::
    fst (handle_parts before) ++ write_done.
Proof.
  intros Hkey Hp Hb Hf. rewrite handler_streaming by assumption.
  rewrite read_loop_spec by reflexivity. fold (decoded reads). cbn [app].
  rewrite Hf, handle_parts_app.
  destruct (handle_parts before) as [w r]. cbn [snd fst] in *. subst r.
  cbn [handle_parts]. unfold handle_part. rewrite Hp, text_eqb_refl.
  reflexivity.
Qed.

(** C4. When a frame of the stream has the sentinel as its payload, the
    session writes what the frames before it give, then the done message,
    and ends: the frames after it, already in the buffer or still to come,
    are not handled, inside one pass over the parts as well.  Every session
    sends chunk events followed by exactly one terminal event, done or
    error, and ends the response right after it. *)
Theorem C4_sentinel_ends_session :
  (forall key diag reads before part after,
      key <> [] ->
      payload part = Some SENTINEL ->
      snd (handle_parts before) = false ->
      frames (decoded reads) = before ++ part :: after ->
      handler (streaming key reads diag) POST =
        headers ++ fetch_call OPENAI_URL key ::
        fst (handle_parts before) ++ write_done
      /\ outbound (handler (streaming key reads diag) POST) =
           outbound (fst (handle_parts before)) ++ [done])
  /\ (forall before part after,
      payload part = Some SENTINEL ->
      snd (handle_parts before) = false ->
      handle_parts (before ++ part :: after) =
        (fst (handle_parts before) ++ write_done, true))
  /\ (forall e req, exists cs t,
        outbound (handler e req) = map chunk cs ++ [t]
        /\ is_terminal t = true)
  /\ (forall e req, exists tr,
        handler e req = tr ++ [end_] /\ ~ In end_ tr).
Proof.
  split; [|split; [|split]].
  - intros key diag reads before part after Hkey Hp Hb Hf.
    rewrite (handler_at_sentinel key diag reads before after part)
      by assumption.
    split; [reflexivity|].
    rewrite outbound_app. cbn [outbound headers app].
    rewrite outbound_app. reflexivity.
  - intros before part after Hp Hb. rewrite handle_parts_app.
    destruct (handle_parts before) as [w r]. cbn [snd fst] in *. subst r.
    cbn [handle_parts]. unfold handle_part. rewrite Hp, text_eqb_refl.
    reflexivity.
  - intros e req. destruct (handler_shape e req) as (pre & cs & fin & E & Hpre & Hfin).
    rewrite E, !outbound_app, outbound_preamble, outbound_write_chunks by assumption.
    destruct Hfin as [|msg]; [exists cs, done|exists cs, (error msg)];
      split; reflexivity.
  - intros e req. destruct (handler_shape e req) as (pre & cs & fin & E & Hpre & Hfin).
    rewrite E.
    destruct Hfin as [|msg].
    + exists (pre ++ write_chunks cs ++ [write (sse_event "done"); write (sse_data "[DONE]")]).
      split; [rewrite <- !app_assoc; reflexivity|].
      rewrite !in_app_iff. intros [H|[H|H]].
      * revert H. apply not_end_preamble, Hpre.
      * revert H. apply not_end_write_chunks.
      * cbn in H. destruct H as [H|[H|[]]]; discriminate.
    + exists (pre ++ write_chunks cs ++ [write (sse_error msg)]).
      split; [rewrite <- !app_assoc; reflexivity|].
      rewrite !in_app_iff. intros [H|[H|H]].
      * revert H. apply not_end_preamble, Hpre.
      * revert H. apply not_end_write_chunks.
      * cbn in H. destruct H as [H|[]]; discriminate.
Qed.

Lemma C4_sentinel_ends_session_witness :
  let reads := [Resolved (Some (firstn 80 stream_A_B_DONE));
                Resolved (Some (skipn 80 stream_A_B_DONE
                                  ++ b8q "data: late" ++ LFLF));
                Rejected (u16 "terminated")] in
  let before := [u16q "data: {'choices':[{'delta':{'content':'A'}}]}";
                 u16q "data: {'choices':[{'delta':{'content':'B'}}]}"] in
  handler (streaming (u16 "sk-test") reads (Resolved [])) POST =
    headers ++ fetch_call OPENAI_URL (u16 "sk-test") ::
    fst (handle_parts before) ++ write_done
  /\ outbound (handler (streaming (u16 "sk-test") reads (Resolved [])) POST) =
       outbound (fst (handle_parts before)) ++ [done].
Proof.
  apply (proj1 C4_sentinel_ends_session _ _ _ _ (u16 "data: [DONE]")
           [u16 "data: late"]);
    [discriminate|reflexivity|reflexivity|reflexivity].
Defined.

(** ** Payloads that are not JSON *)

(** C5. A payload that the handler tries to parse, that is one other than
    the sentinel, and on which [JSON.parse] throws, is sent as a chunk
    carrying the payload text itself.  For a frame of the stream with such
    a payload, the session writes what the frames before it give, then that
    chunk, and goes on with the frames after it as it would without it: the
    payload does not end the session. *)
Theorem C5_unparsable_payload_forwarded (key : text) (diag : outcome text)
    (reads : list read) (before : list text) (part data : text)
    (after : list text) :
  key <> [] ->
  frames (decoded reads) = before ++ part :: after ->
  snd (handle_parts before) = false ->
  payload part = Some data ->
  data <> SENTINEL ->
  JSON_parse data = None ->
  handle_part part = ([write (sse_chunk (JString data))], false)
  /\ handle_parts (part :: after) =
       (write (sse_chunk (JString data)) :: fst (handle_parts after),
        snd (handle_parts after))
  /\ handler (streaming key reads diag) POST =
       headers ++ fetch_call OPENAI_URL key ::
       fst (handle_parts before) ++
       write (sse_chunk (JString data)) ::
       (let (w, returned) := handle_parts after in
        if returned then w
        else w ++ match upstream_failure reads with
                  | Some err => write_error err
                  | None => write_done
                  end)
  /\ In (chunk (JString data))
        (outbound (handler (streaming key reads diag) POST)).
Proof.
  intros Hkey Hf Hb Hp Hs Hj.
  assert (E : handle_part part = ([write (sse_chunk (JString data))], false)).
  { unfold handle_part. rewrite Hp, text_eqb_neq by assumption.
    unfold forward. rewrite Hj. reflexivity. }
  assert (E' : handle_parts (part :: after) =
               (write (sse_chunk (JString data)) :: fst (handle_parts after),
                snd (handle_parts after))).
  { cbn [handle_parts]. rewrite E. destruct (handle_parts after). reflexivity. }
  assert (Eh : handler (streaming key reads diag) POST =
               headers ++ fetch_call OPENAI_URL key ::
               fst (handle_parts before) ++
               write (sse_chunk (JString data)) ::
               (let (w, returned) := handle_parts after in
                if returned then w
                else w ++ match upstream_failure reads with
                          | Some err => write_error err
                          | None => write_done
                          end)).
  { rewrite handler_streaming by assumption.
    rewrite read_loop_spec by reflexivity. fold (decoded reads). cbn [app].
    rewrite Hf, handle_parts_app, E'.
    destruct (handle_parts before) as [w r]. cbn [snd fst] in *. subst r.
    destruct (handle_parts after) as [w' [|]]; cbn [fst snd].
    - reflexivity.
    - rewrite <- app_assoc. reflexivity. }
  split; [exact E|]. split; [exact E'|]. split; [exact Eh|].
  rewrite Eh, outbound_app. cbn [outbound headers app].
  rewrite outbound_app. apply in_or_app. right. left. reflexivity.
Qed.

Lemma C5_unparsable_payload_forwarded_witness :
  let reads := [Resolved (Some (firstn 47 stream_A_B_DONE));
                Resolved (Some (b8q "data: {'choices':[{'delta'" ++ LFLF
                                  ++ skipn 47 stream_A_B_DONE))] in
  let part := u16q "data: {'choices':[{'delta'" in
  let data := u16q "{'choices':[{'delta'" in
  let before := [u16q "data: {'choices':[{'delta':{'content':'A'}}]}"] in
  let after := [u16q "data: {'choices':[{'delta':{'content':'B'}}]}";
                u16 "data: [DONE]"] in
  handle_part part = ([write (sse_chunk (JString data))], false)
  /\ handle_parts (part :: after) =
       (write (sse_chunk (JString data)) :: fst (handle_parts after),
        snd (handle_parts after))
  /\ handler (streaming (u16 "sk-test") reads (Resolved [])) POST =
       headers ++ fetch_call OPENAI_URL (u16 "sk-test") ::
       fst (handle_parts before) ++
       write (sse_chunk (JString data)) ::
       (let (w, returned) := handle_parts after in
        if returned then w
        else w ++ match upstream_failure reads with
                  | Some err => write_error err
                  | None => write_done
                  end)
  /\ In (chunk (JString data))
        (outbound (handler (streaming (u16 "sk-test") reads (Resolved [])) POST)).
Proof.
  apply C5_unparsable_payload_forwarded;
    [discriminate|reflexivity|reflexivity|reflexivity|discriminate
    |reflexivity].
Defined.

(** ** Payload extraction *)

Lemma strip_prefix_spec (p s r : text) :
  strip_prefix p s = Some r <-> s = p ++ r.
Proof.
  revert s; induction p as [|x p IH]; intros s.
  - cbn. split; congruence.
  - destruct s as [|y s]; cbn [strip_prefix app]; [split; discriminate|].
    destruct (N.eqb_spec x y) as [->|Hxy].
    + rewrite IH. split; [intros ->; reflexivity|intros H; injection H; auto].
    + split; [discriminate|]. intros H; injection H as H _.
      symmetry in H. contradiction.
Qed.

Lemma match_data_unfold (line : text) :
  match_data line =
    match strip_prefix marker line with
    | Some rest => Some rest
    | None =>
        match line with
        | [] => None
        | _ :: r => match_data r
        end
    end.
Proof. destruct line; reflexivity. Qed.

Lemma match_data_leftmost (s pre post : text) :
  leftmost s pre post -> match_data s = Some post.
Proof.
  revert s; induction pre as [|x pre IH]; intros s [E Hmin];
    rewrite match_data_unfold.
  - cbn [app] in E. apply strip_prefix_spec in E. rewrite E. reflexivity.
  - destruct (strip_prefix marker s) as [rest|] eqn:Es.
    + apply strip_prefix_spec in Es.
      specialize (Hmin [] rest Es). cbn in Hmin. lia.
    + subst s. cbn [app]. apply IH. split; [reflexivity|].
      intros pre' post' E'.
      specialize (Hmin (x :: pre') post'). cbn [app length] in Hmin.
      rewrite E' in Hmin. specialize (Hmin eq_refl). lia.
Qed.

Lemma match_data_absent (s : text) :
  (forall pre post, s <> pre ++ marker ++ post) -> match_data s = None.
Proof.
  induction s as [|x s IH]; intros H; rewrite match_data_unfold.
  - reflexivity.
  - destruct (strip_prefix marker (x :: s)) as [rest|] eqn:Es.
    + apply strip_prefix_spec in Es. exfalso. apply (H [] rest). exact Es.
    + apply IH. intros pre post E. apply (H (x :: pre) post).
      rewrite E. reflexivity.
Qed.

(** C6 (amended). The payload of a part is found by searching its trimmed
    text for the leftmost occurrence of the marker, the five characters of
    the data field name and its colon followed by a space, anywhere in the
    text; the payload is the trimmed rest of the part after that occurrence.
    A part whose trimmed text does not contain the marker has no payload,
    and nothing is written for it. *)
Theorem C6_payload_after_leftmost_marker (part : text) :
  (forall pre post,
      leftmost (trim part) pre post -> payload part = Some (trim post))
  /\ ((forall pre post, trim part <> pre ++ marker ++ post) ->
      payload part = None /\ handle_part part = ([], false)).
Proof.
  unfold handle_part, payload. split.
  - intros pre post H. rewrite (match_data_leftmost _ _ _ H).
    destruct H as [E _]. destruct (trim part); [|reflexivity].
    destruct pre; discriminate.
  - intros H. rewrite (match_data_absent _ H).
    destruct (trim part); split; reflexivity.
Qed.

Lemma C6_payload_after_leftmost_marker_witness :
  payload (u16 "  event: x data: [DONE]  ") = Some (trim (u16 "[DONE]"))
  /\ payload (u16 "data:[DONE]") = None
  /\ handle_part (u16 "data:[DONE]") = ([], false).
Proof.
  split.
  - apply (proj1 (C6_payload_after_leftmost_marker _) (u16 "event: x ")).
    split; [reflexivity|].
    intros pre' post' E.
    destruct pre' as [|? [|? [|? [|? [|? [|? [|? [|? [|? pre']]]]]]]]];
      try (cbn; lia); vm_compute in E; discriminate.
  - apply (proj2 (C6_payload_after_leftmost_marker _)).
    intros pre post E.
    destruct pre as [|? [|? [|? [|? [|? [|? [|? [|? [|? [|? [|? [|? pre]]]]]]]]]]]];
      vm_compute in E; discriminate.
Defined.

(** The claim C6 as stated fails: a frame without any line that starts with
    the field name has a payload and is forwarded, a payload runs over the
    following lines, and a line with the field name but no space after the
    colon has no payload. *)
Lemma C6_counterexample_unanchored_match :
  (spec_payload (u16 "metadata: hello") = None
   /\ payload (u16 "metadata: hello") = Some (u16 "hello")
   /\ outbound (fst (handle_part (u16 "metadata: hello"))) =
        [chunk (JString (u16 "hello"))])
  /\ (spec_payload (u16 "data: a" ++ [LF] ++ u16 "data: b") = Some (u16 "a")
      /\ payload (u16 "data: a" ++ [LF] ++ u16 "data: b") =
           Some (u16 "a" ++ [LF] ++ u16 "data: b"))
  /\ (spec_payload (u16 "data:[DONE]") = Some (u16 "[DONE]")
      /\ payload (u16 "data:[DONE]") = None).
Proof. vm_compute. repeat split. Qed.

(** ** Requests that never reach the stream *)

(** C7 (amended). A request whose method is not POST makes no upstream
    request and gets a single error event.  When the upstream key is
    configured, that error is the method-not-allowed one and the status is
    405. *)
Theorem C7_non_post_rejected (e : env) (req : request) :
  method req <> u16 "POST" ->
  fetches (handler e req) = 0%nat
  /\ (exists msg, outbound (handler e req) = [error msg])
  /\ (forall key, OPENAI_API_KEY e = Some key -> key <> [] ->
      outbound (handler e req) = [error METHOD_NOT_ALLOWED]
      /\ status_of (handler e req) = 405).
Proof.
  intros Hm. unfold handler.
  rewrite (text_eqb_neq _ _ Hm). cbn [negb].
  destruct (OPENAI_API_KEY e) as [[|k key]|].
  - split; [reflexivity|split]; [eexists; reflexivity|].
    intros key' E Hk. congruence.
  - split; [reflexivity|split]; [eexists; reflexivity|].
    intros key' E Hk. split; reflexivity.
  - split; [reflexivity|split]; [eexists; reflexivity|].
    intros key' E Hk. discriminate.
Qed.

Lemma C7_non_post_rejected_witness :
  fetches (handler (streaming (u16 "sk-test") [] (Resolved [])) (mkRequest (u16 "GET"))) = 0%nat
  /\ (exists msg,
        outbound (handler (streaming (u16 "sk-test") [] (Resolved []))
                    (mkRequest (u16 "GET"))) = [error msg])
  /\ (forall key,
        OPENAI_API_KEY (streaming (u16 "sk-test") [] (Resolved [])) = Some key ->
        key <> [] ->
        outbound (handler (streaming (u16 "sk-test") [] (Resolved []))
                    (mkRequest (u16 "GET"))) = [error METHOD_NOT_ALLOWED]
        /\ status_of (handler (streaming (u16 "sk-test") [] (Resolved []))
                        (mkRequest (u16 "GET"))) = 405).
Proof.
  apply C7_non_post_rejected. discriminate.
Defined.

(** The claim C7 as stated fails when the key is not configured: the key is
    checked first, so a GET request gets the missing-key error with the
    default status 200. *)
Lemma C7_counterexample_missing_key :
  let e := mkEnv None (Rejected []) in
  let req := mkRequest (u16 "GET") in
  method req <> u16 "POST"
  /\ outbound (handler e req) = [error (u16 "OPENAI_API_KEY not set")]
  /\ outbound (handler e req) <> [error METHOD_NOT_ALLOWED]
  /\ status_of (handler e req) = 200.
Proof. repeat split; try reflexivity; discriminate. Qed.

(** C8. When the upstream request was made and its response is not [ok] or
    has no body, the handler sends exactly one event, an error, and ends; it
    sends no chunk and no done.  The error carries the text of the upstream
    response. *)
Theorem C8_unusable_upstream_response (e : env) (req : request)
    (key : text) (resp : response) :
  OPENAI_API_KEY e = Some key -> key <> [] ->
  method req = u16 "POST" ->
  fetch e = Resolved resp ->
  ok resp = false \/ body resp = None ->
  (exists msg,
      handler e req =
        headers ++ fetch_call OPENAI_URL key :: write_error msg
      /\ outbound (handler e req) = [error msg])
  /\ (forall t, text_ resp = Resolved t ->
      outbound (handler e req) = [error t]).
Proof.
  intros Hk Hne Hm Hf Hbad. unfold handler.
  rewrite Hk, Hm, text_eqb_refl, Hf. cbn [negb].
  destruct key as [|k key]; [contradiction|].
  assert (E : match ok resp, body resp with
              | true, Some reads => read_loop new_TextDecoder [] reads
              | _, _ => match text_ resp with
                        | Resolved t => write_error t
                        | Rejected err => write_error err
                        end
              end
              = write_error match text_ resp with
                            | Resolved t => t
                            | Rejected err => err
                            end).
  { destruct Hbad as [H|H]; rewrite H.
    - destruct (text_ resp); reflexivity.
    - destruct (ok resp), (text_ resp); reflexivity. }
  rewrite E. split.
  - eexists. split; reflexivity.
  - intros t Ht. rewrite Ht. reflexivity.
Qed.

Lemma C8_unusable_upstream_response_witness :
  let resp := mkResponse false (Some []) (Resolved (u16 "Invalid API key")) in
  let e := mkEnv (Some (u16 "sk-test")) (Resolved resp) in
  (exists msg,
      handler e POST =
        headers ++ fetch_call OPENAI_URL (u16 "sk-test") :: write_error msg
      /\ outbound (handler e POST) = [error msg])
  /\ (forall t, text_ resp = Resolved t ->
      outbound (handler e POST) = [error t]).
Proof.
  apply C8_unusable_upstream_response;
    [reflexivity|discriminate|reflexivity|reflexivity|left; reflexivity].
Defined.

(** ** The consumer and error events *)

(** A message whose data parses to a value without a string [chunk] leaves
    the consumer as it is. *)
Lemma onmessage_without_chunk (st : consumer) (data : text) (parsed : json) :
  data <> [] ->
  JSON_parse data = Some parsed ->
  is_string (prop parsed "chunk") = false ->
  onmessage st data = st.
Proof.
  intros Hne Hp Hc. unfold onmessage.
  destruct data as [|c data]; [contradiction|].
  rewrite Hp, Hc, andb_false_r. reflexivity.
Qed.

(** C9 (the code departs from the claim). The handler reports a missing
    key as an error event.  On the message that carries it the consumer
    changes nothing: no text is shown, nothing records a failure, and once
    the stream is closed the form is in the state it has after a stream
    without any event. *)
Theorem C9_error_event_dropped :
  (forall f req, outbound (handler (mkEnv None f) req) = [error KEY_NOT_SET])
  /\ JSON_parse error_message_data =
       Some (JObject [(u16 "error", JString KEY_NOT_SET)])
  /\ onmessage submitted error_message_data = submitted
  /\ output (onclose (onmessage submitted error_message_data)) = []
  /\ onclose (onmessage submitted error_message_data) = onclose submitted.
Proof. split; [reflexivity|]. vm_compute. repeat split. Qed.

(** ** The end of the upstream stream *)

(** C10. When the upstream stream ends, what the handler has written is
    what the complete frames of the decoded text give, up to the sentinel
    if there is one, and otherwise followed by the done message alone.  The
    text after the last separator takes no part in it: two streams with the
    same frames get the same response, whatever their residues. *)
Theorem C10_residue_discarded (key : text) (diag : outcome text)
    (reads : list read) :
  key <> [] ->
  upstream_failure reads = None ->
  decoded reads = join_frames (frames (decoded reads)) ++ residue (decoded reads)
  /\ handler (streaming key reads diag) POST =
       headers ++ fetch_call OPENAI_URL key ::
       (let (w, returned) := handle_parts (frames (decoded reads)) in
        if returned then w else w ++ write_done)
  /\ forall reads',
       upstream_failure reads' = None ->
       frames (decoded reads') = frames (decoded reads) ->
       handler (streaming key reads' diag) POST =
       handler (streaming key reads diag) POST.
Proof.
  intros Hkey Hf.
  assert (E : forall rs, upstream_failure rs = None ->
            handler (streaming key rs diag) POST =
              headers ++ fetch_call OPENAI_URL key ::
              (let (w, returned) := handle_parts (frames (decoded rs)) in
               if returned then w else w ++ write_done)).
  { intros rs Hrs. rewrite handler_streaming by assumption.
    rewrite read_loop_spec by reflexivity. rewrite Hrs. reflexivity. }
  split; [|split].
  - symmetry. apply split_blank_join.
  - apply E, Hf.
  - intros reads' Hf' Hfr. rewrite !E by assumption. rewrite Hfr. reflexivity.
Qed.

Lemma C10_residue_discarded_witness :
  let key := u16 "sk-test" in
  let reads := [Resolved (Some stream_A_then_cut)] in
  decoded reads = join_frames (frames (decoded reads)) ++ residue (decoded reads)
  /\ handler (streaming key reads (Resolved [])) POST =
       headers ++ fetch_call OPENAI_URL key ::
       (let (w, returned) := handle_parts (frames (decoded reads)) in
        if returned then w else w ++ write_done)
  /\ forall reads',
       upstream_failure reads' = None ->
       frames (decoded reads') = frames (decoded reads) ->
       handler (streaming key reads' (Resolved [])) POST =
       handler (streaming key reads (Resolved [])) POST.
Proof.
  apply C10_residue_discarded; [discriminate|reflexivity].
Defined.

Example residue_of_cut_stream :
  residue (decoded [Resolved (Some stream_A_then_cut)]) =
    u16q "data: {'choices':[{'delta':{'content':'B'}}]}"
  /\ outbound
       (handler (streaming (u16 "sk-test") [Resolved (Some stream_A_then_cut)]
                   (Resolved [])) POST) =
     [chunk (JString (u16 "A")); done].
Proof. vm_compute. split; reflexivity. Qed.

(** ** The model on examples *)

Example parse_delta :
  JSON_parse (u16q "{'choices':[{'delta':{'content':'Hi'}}]}") =
    Some (JObject [(u16 "choices",
            JArray [JObject [(u16 "delta",
              JObject [(u16 "content", JString (u16 "Hi"))])]])]).
Proof. reflexivity. Qed.

Example parse_rejects :
  map JSON_parse
    [SENTINEL; u16 ""; u16 "01"; u16 "1."; u16 "[1,]"; u16q "{'a':1,}";
     u16 "tru"; u16 "1 2"; u16q "'abc"; u16 "{,}"] =
    repeat None 10.
Proof. reflexivity. Qed.

Example parse_escapes :
  JSON_parse ([34; 92] ++ u16 "u20AC" ++ [92] ++ u16 "n" ++ [34]) =
    Some (JString [0x20AC; 10]).
Proof. reflexivity. Qed.

Example metadata_frame_is_silent :
  handle_part (u16q "data: {'choices':[{'delta':{'role':'assistant'}}]}") =
    ([], false).
Proof. reflexivity. Qed.

Example null_payload_is_forwarded :
  handle_part (u16 "data: null") =
    ([write (sse_chunk (JString (u16 "null")))], false).
Proof. reflexivity. Qed.

Example tiny_number_is_falsy :
  truthy (Some (JNumber (mkNumber false 1 (-400)))) = false
  /\ truthy (Some (JNumber (mkNumber false 5 (-324)))) = true.
Proof. vm_compute. split; reflexivity. Qed.

Example decode_astral_in_three_reads :
  loop_state new_TextDecoder []
    [Resolved (Some [Byte.xf0]); Resolved (Some [Byte.x9f; Byte.x98]);
     Resolved (Some [Byte.x80])] =
    Some (idle true, [0xD83D; 0xDE00]).
Proof. reflexivity. Qed.

Example decode_broken_sequence :
  snd (decode new_TextDecoder [Byte.xc3; Byte.x28]) = [REPLACEMENT; 40].
Proof. reflexivity. Qed.

Example failed_read_after_a_chunk :
  outbound
    (handler
       (streaming (u16 "sk-test")
          [Resolved (Some (firstn 47 stream_A_B_DONE));
           Rejected (u16 "TypeError: terminated")]
          (Resolved []))
       POST) =
    [chunk (JString (u16 "A")); error (u16 "TypeError: terminated")].
Proof. reflexivity. Qed.

Example chunk_message_is_appended :
  onmessage submitted (u16q "{'chunk':'Hi'}") =
    mkConsumer (u16 "Hi") (u16 "Hi") true false.
Proof. reflexivity. Qed.

(** * Further properties *)

(** ** The relay whatever the reads *)

(** X1. The response depends on the bytes the upstream delivered before its
    first failed read and on that failure only: how the reads cut the bytes,
    and reads without a value, change nothing. *)
Theorem relay_independent_of_reads (key : text) (diag : outcome text)
    (req : request) (reads reads' : list read) :
  upstream_bytes reads = upstream_bytes reads' ->
  upstream_failure reads = upstream_failure reads' ->
  handler (streaming key reads diag) req =
  handler (streaming key reads' diag) req.
Proof.
  intros Hb Hf. unfold handler, streaming.
  cbn [OPENAI_API_KEY fetch ok body].
  destruct key as [|k key]; [reflexivity|].
  destruct (negb (text_eqb (method req) (u16 "POST"))); [reflexivity|].
  rewrite !read_loop_spec by reflexivity. rewrite Hb, Hf. reflexivity.
Qed.

Lemma relay_independent_of_reads_witness :
  handler
    (streaming (u16 "sk-test")
       (Resolved None :: map (fun b => Resolved (Some [b])) stream_A_B_DONE)
       (Resolved [])) POST =
  handler
    (streaming (u16 "sk-test") [Resolved (Some stream_A_B_DONE)] (Resolved []))
    POST.
Proof. apply relay_independent_of_reads; reflexivity. Defined.

Lemma no_done_in_chunks (cs : list json) : ~ In done (map chunk cs).
Proof. rewrite in_map_iff. intros (v & E & _). discriminate. Qed.

(** X2. When a read fails before any sentinel was met, the chunks of the
    frames completed so far have been sent and stay, the session ends with
    one error event carrying the failure, and no done event is sent. *)
Theorem failed_read_ends_with_error (key : text) (diag : outcome text)
    (reads : list read) (err : text) :
  key <> [] ->
  upstream_failure reads = Some err ->
  snd (handle_parts (frames (decoded reads))) = false ->
  outbound (handler (streaming key reads diag) POST) =
    outbound (fst (handle_parts (frames (decoded reads)))) ++ [error err]
  /\ ~ In done (outbound (handler (streaming key reads diag) POST)).
Proof.
  intros Hkey Hf Hs.
  rewrite handler_streaming by assumption.
  rewrite outbound_app. cbn [outbound headers app].
  rewrite read_loop_spec by reflexivity. rewrite Hf.
  fold (decoded reads). cbn [app].
  destruct (handle_parts_shape (frames (decoded reads))) as [cs [E|E]];
    rewrite E in Hs |- *; [|discriminate].
  cbn [fst]. rewrite outbound_app, outbound_write_chunks. split; [reflexivity|].
  rewrite in_app_iff. intros [H|[H|[]]]; [|discriminate].
  revert H. apply no_done_in_chunks.
Qed.

Lemma failed_read_ends_with_error_witness :
  let reads := [Resolved (Some (firstn 60 stream_A_B_DONE));
                Rejected (u16 "terminated")] in
  outbound (handler (streaming (u16 "sk-test") reads (Resolved [])) POST) =
    outbound (fst (handle_parts (frames (decoded reads))))
      ++ [error (u16 "terminated")]
  /\ ~ In done
        (outbound (handler (streaming (u16 "sk-test") reads (Resolved [])) POST)).
Proof.
  apply failed_read_ends_with_error; [discriminate|reflexivity|reflexivity].
Defined.

Lemma response_only_read_loop (reads : list read) (d : decoder) (b : text) :
  response_only (read_loop d b reads) = true.
Proof.
  destruct (read_loop_shape reads d b) as (cs & fin & E & Hfin). rewrite E.
  unfold response_only. rewrite forallb_app. apply andb_true_iff. split.
  - apply forallb_forall. intros x Hx. unfold write_chunks in Hx.
    apply in_map_iff in Hx. destruct Hx as (v & <- & _). reflexivity.
  - destruct Hfin; reflexivity.
Qed.

Lemma status_response_only (tr : list effect) (s : N) :
  response_only tr = true ->
  fold_left (fun s x => match x with status c => c | _ => s end) tr s = s.
Proof.
  revert s; induction tr as [|x tr IH]; intros s H; [reflexivity|].
  unfold response_only in H. cbn [forallb] in H.
  apply andb_true_iff in H. destruct H as [Hx H].
  cbn [fold_left]. destruct x; try discriminate; apply IH, H.
Qed.

Lemma fetches_response_only (tr : list effect) :
  response_only tr = true -> fetches tr = 0%nat.
Proof.
  induction tr as [|x tr IH]; intros H; [reflexivity|].
  unfold response_only in H. cbn [forallb] in H.
  apply andb_true_iff in H. destruct H as [Hx H].
  unfold fetches in *. cbn [filter].
  destruct x; try discriminate; apply IH, H.
Qed.

(** The trace of the handler once the key and the method are accepted and
    [fetch] has settled: only writes and the end of the response. *)
Lemma response_only_after_fetch (f : outcome response) :
  response_only
    match f with
    | Rejected err => write_error err
    | Resolved response =>
        match ok response, body response with
        | true, Some reads => read_loop new_TextDecoder [] reads
        | _, _ =>
            match text_ response with
            | Resolved t => write_error t
            | Rejected err => write_error err
            end
        end
    end = true.
Proof.
  destruct f as [resp|err]; [|reflexivity].
  destruct (ok resp), (body resp) as [reads|], (text_ resp);
    try reflexivity; apply response_only_read_loop.
Qed.

(** X3. The status of the response is 405 exactly when the key is
    configured and the method is not POST; every other response, the
    failing ones included, keeps the default status 200. *)
Theorem status_405_only_for_wrong_method (e : env) (req : request) :
  status_of (handler e req) =
    if key_configured e && negb (text_eqb (method req) (u16 "POST"))
    then 405 else 200.
Proof.
  unfold handler, key_configured, status_of.
  destruct (OPENAI_API_KEY e) as [[|k key]|]; try reflexivity.
  destruct (negb (text_eqb (method req) (u16 "POST"))); [reflexivity|].
  cbn [andb headers app fold_left].
  apply status_response_only, response_only_after_fetch.
Qed.

Lemma handler_with_body_converts (e : env) (req : request)
    (req_body : option json) :
  prompt_throws req_body = false ->
  handler_with_body e req req_body = handler e req.
Proof.
  intros H. unfold handler_with_body, handler. rewrite H. reflexivity.
Qed.

(** X4. The handler calls the upstream at most once, and exactly once when
    the key is configured, the method is POST and the prompt can be built
    from the body: a missing or empty key, a wrong method and a body field
    that cannot be converted to a string never reach the upstream, and
    nothing is retried.  In the last case the session ends with the one
    error that the conversion threw. *)
Theorem one_upstream_call_at_most (e : env) (req : request)
    (req_body : option json) :
  fetches (handler_with_body e req req_body) =
    (if key_configured e && text_eqb (method req) (u16 "POST")
        && negb (prompt_throws req_body)
     then 1%nat else 0%nat)
  /\ (key_configured e && text_eqb (method req) (u16 "POST")
        && prompt_throws req_body = true ->
      handler_with_body e req req_body =
        headers ++ write_error CONVERSION_ERROR).
Proof.
  unfold handler_with_body, key_configured.
  destruct (OPENAI_API_KEY e) as [[|k key]|];
    try (split; [reflexivity|discriminate]).
  destruct (text_eqb (method req) (u16 "POST"));
    [|split; [reflexivity|discriminate]].
  destruct (prompt_throws req_body); [split; reflexivity|].
  split; [|discriminate].
  cbn [andb negb headers app].
  change (S (fetches
               match fetch e with
               | Rejected err => write_error err
               | Resolved response =>
                   match ok response, body response with
                   | true, Some reads => read_loop new_TextDecoder [] reads
                   | _, _ =>
                       match text_ response with
                       | Resolved t => write_error t
                       | Rejected err => write_error err
                       end
                   end
               end) = 1%nat).
  rewrite fetches_response_only by apply response_only_after_fetch.
  reflexivity.
Qed.

Lemma one_upstream_call_at_most_witness :
  let e := streaming (u16 "sk-test") [] (Resolved []) in
  let req_body :=
    Some (JObject [(u16 "patient_name",
                    JObject [(u16 "toString", JNumber (mkNumber false 1 0))])]) in
  handler_with_body e POST req_body = headers ++ write_error CONVERSION_ERROR.
Proof.
  apply (proj2 (one_upstream_call_at_most _ _ _)). reflexivity.
Defined.

(** ** Well-formed upstream text *)

Lemma decode_text (cs : list N) :
  forallb scalar cs = true ->
  forall bom,
    decode (idle bom) (flat_map utf8_encode cs) =
      (idle (bom || match cs with [] => false | _ => true end),
       flat_map utf16 (if bom then cs else strip_bom cs)).
Proof.
  induction cs as [|c cs IH]; intros H bom.
  - cbn. rewrite orb_false_r. destruct bom; reflexivity.
  - cbn [forallb] in H. apply andb_true_iff in H. destruct H as [Hc Hcs].
    cbn [flat_map]. rewrite decode_app, decode_char by assumption.
    rewrite orb_true_r.
    assert (E : serialize (idle bom) c =
                (idle true,
                 if bom then utf16 c
                 else if c =? 0xFEFF then [] else utf16 c)).
    { unfold serialize, idle. cbn. destruct bom; reflexivity. }
    rewrite E, (IH Hcs true). cbn [orb].
    assert (Ei : idle (match cs with [] => false | _ => true end || true)
                 = idle true) by (destruct cs; reflexivity).
    destruct bom.
    + destruct cs; reflexivity.
    + unfold strip_bom. destruct (c =? 0xFEFF); destruct cs; reflexivity.
Qed.

(** X5. When the upstream delivers the UTF-8 encoding of a text, however
    the reads cut it, even inside characters, the handler relays that text,
    without its byte order mark if it starts with one: at the head of its
    loop the buffer is what follows the last separator of the text, and
    what it writes is what the frames of the text give. *)
Theorem well_formed_text_relayed (cs : list N) (reads : list read)
    (key : text) (diag : outcome text) :
  forallb scalar cs = true ->
  upstream_bytes reads = flat_map utf8_encode cs ->
  upstream_failure reads = None ->
  key <> [] ->
  let t := flat_map utf16 (strip_bom cs) in
  loop_state new_TextDecoder [] reads =
    (if snd (handle_parts (frames t)) then None
     else Some (idle match cs with [] => false | _ => true end, residue t))
  /\ handler (streaming key reads diag) POST =
       headers ++ fetch_call OPENAI_URL key ::
       (let (w, returned) := handle_parts (frames t) in
        if returned then w else w ++ write_done).
Proof.
  intros Hs Hb Hf Hkey t. split.
  - rewrite loop_state_spec by reflexivity. rewrite Hb, Hf.
    change new_TextDecoder with (idle false).
    rewrite decode_text by assumption. cbn [orb app]. fold t.
    destruct (snd (handle_parts (frames t))); reflexivity.
  - rewrite handler_streaming by assumption.
    rewrite read_loop_spec by reflexivity. rewrite Hb, Hf.
    change new_TextDecoder with (idle false).
    rewrite decode_text by assumption. reflexivity.
Qed.

Lemma well_formed_text_relayed_witness :
  let cs := u16 "data: " ++ [0x20AC; 0x1F600; 10; 10; 0x48] in
  let reads :=
    [Resolved (Some (b8q "data: " ++ [Byte.xe2]));
     Resolved None;
     Resolved (Some [Byte.x82; Byte.xac; Byte.xf0; Byte.x9f]);
     Resolved (Some [Byte.x98; Byte.x80; Byte.x0a; Byte.x0a; Byte.x48])] in
  let t := flat_map utf16 (strip_bom cs) in
  loop_state new_TextDecoder [] reads =
    (if snd (handle_parts (frames t)) then None
     else Some (idle match cs with [] => false | _ => true end, residue t))
  /\ handler (streaming (u16 "sk-test") reads (Resolved [])) POST =
       headers ++ fetch_call OPENAI_URL (u16 "sk-test") ::
       (let (w, returned) := handle_parts (frames t) in
        if returned then w else w ++ write_done).
Proof.
  apply well_formed_text_relayed;
    [reflexivity|reflexivity|reflexivity|discriminate].
Defined.

Example euro_and_emoji_relayed :
  outbound
    (handler
       (streaming (u16 "sk-test")
          [Resolved (Some (b8q "data: " ++ [Byte.xe2]));
           Resolved (Some [Byte.x82; Byte.xac; Byte.xf0; Byte.x9f]);
           Resolved (Some [Byte.x98; Byte.x80; Byte.x0a; Byte.x0a; Byte.x48])]
          (Resolved [])) POST) =
    [chunk (JString [0x20AC; 0xD83D; 0xDE00]); done].
Proof. reflexivity. Qed.

(** ** Whitespace around frames and payloads *)

Lemma trimStart_spaces (ws y : text) :
  forallb is_space ws = true -> trimStart (ws ++ y) = trimStart y.
Proof.
  induction ws as [|c ws IH]; intros H; [reflexivity|].
  cbn [forallb] in H. apply andb_true_iff in H. destruct H as [Hc H].
  cbn [app trimStart]. rewrite Hc. apply IH, H.
Qed.

Lemma trimStart_fixed (y : text) :
  is_space (hd 32 y) = false -> trimStart y = y.
Proof.
  destruct y as [|c y]; [reflexivity|]. cbn [hd trimStart]. intros ->.
  reflexivity.
Qed.

Lemma hd_rev (y : text) (d : N) : hd d (rev y) = last y d.
Proof.
  induction y as [|c y IH] using rev_ind; [reflexivity|].
  rewrite rev_app_distr, last_last. reflexivity.
Qed.

(** Trimming removes the whitespace around a text that neither starts nor
    ends with whitespace. *)
Lemma trim_around (ws1 y ws3 : text) :
  forallb is_space ws1 = true -> forallb is_space ws3 = true ->
  is_space (hd 32 y) = false -> is_space (last y 32) = false ->
  trim (ws1 ++ y ++ ws3) = y.
Proof.
  intros H1 H3 Hh Hl. unfold trim.
  rewrite trimStart_spaces by assumption.
  assert (Hy : y <> []) by (intros ->; discriminate).
  rewrite (trimStart_fixed (y ++ ws3))
    by (destruct y; [contradiction|exact Hh]).
  rewrite rev_app_distr, trimStart_spaces
    by (rewrite forallb_forall in *; intros x Hx; apply H3, in_rev, Hx).
  rewrite trimStart_fixed by (rewrite hd_rev; exact Hl).
  apply rev_involutive.
Qed.

Lemma is_space_default : is_space 32 = true.
Proof. reflexivity. Qed.

(** X6. A part made of whitespace only, the empty part included, is skipped:
    nothing is written for it and the loop goes on. *)
Theorem blank_part_skipped (part : text) (after : list text) :
  forallb is_space part = true ->
  handle_part part = ([], false)
  /\ handle_parts (part :: after) = handle_parts after.
Proof.
  intros H.
  assert (E : handle_part part = ([], false)).
  { unfold handle_part, payload, trim.
    rewrite <- (app_nil_r part), trimStart_spaces by assumption.
    reflexivity. }
  split; [exact E|]. cbn [handle_parts]. rewrite E.
  destruct (handle_parts after). reflexivity.
Qed.

Lemma blank_part_skipped_witness :
  handle_part [32; 9; 13; 10] = ([], false)
  /\ handle_parts [[32; 9; 13; 10]; u16 "data: [DONE]"] =
       handle_parts [u16 "data: [DONE]"].
Proof. apply blank_part_skipped. reflexivity. Defined.

Lemma match_data_at_start (r : text) : match_data (marker ++ r) = Some r.
Proof.
  rewrite match_data_unfold.
  assert (E : strip_prefix marker (marker ++ r) = Some r)
    by (apply strip_prefix_spec; reflexivity).
  rewrite E. reflexivity.
Qed.

(** X7. Whitespace before the marker, between the marker and the payload
    and after the payload does not count: the payload is the text between,
    and the sentinel is recognised with any such whitespace around it. *)
Theorem payload_ignores_surrounding_space (ws1 ws2 ws3 x : text) :
  forallb is_space ws1 = true ->
  forallb is_space ws2 = true ->
  forallb is_space ws3 = true ->
  is_space (hd 32 x) = false -> is_space (last x 32) = false ->
  payload (ws1 ++ marker ++ ws2 ++ x ++ ws3) = Some x
  /\ (x = SENTINEL ->
      handle_part (ws1 ++ marker ++ ws2 ++ x ++ ws3) = (write_done, true)).
Proof.
  intros H1 H2 H3 Hh Hl.
  assert (Hx : x <> []) by (intros ->; discriminate).
  assert (E : payload (ws1 ++ marker ++ ws2 ++ x ++ ws3) = Some x).
  { unfold payload.
    replace (ws1 ++ marker ++ ws2 ++ x ++ ws3)
      with (ws1 ++ (marker ++ ws2 ++ x) ++ ws3)
      by (rewrite <- !app_assoc; reflexivity).
    rewrite trim_around; try assumption; try reflexivity.
    2: { rewrite app_assoc, last_append by assumption. exact Hl. }
    change (marker ++ ws2 ++ x) with (100 :: tl marker ++ ws2 ++ x) at 1.
    cbv iota. rewrite match_data_at_start.
    rewrite <- (app_nil_r (ws2 ++ x)), <- app_assoc.
    rewrite trim_around by (assumption || reflexivity). reflexivity. }
  split; [exact E|].
  intros ->. unfold handle_part. rewrite E, text_eqb_refl. reflexivity.
Qed.

Lemma payload_ignores_surrounding_space_witness :
  payload ([32; 10] ++ marker ++ [32; 9] ++ SENTINEL ++ [13; 32]) =
    Some SENTINEL
  /\ (SENTINEL = SENTINEL ->
      handle_part ([32; 10] ++ marker ++ [32; 9] ++ SENTINEL ++ [13; 32]) =
        (write_done, true)).
Proof. apply payload_ignores_surrounding_space; reflexivity. Defined.

Lemma trimStart_split (s : text) :
  exists ws, s = ws ++ trimStart s /\ forallb is_space ws = true.
Proof.
  induction s as [|c s [ws [E H]]]; [exists []; split; reflexivity|].
  cbn [trimStart]. destruct (is_space c) eqn:Ec.
  - exists (c :: ws). cbn [app forallb]. rewrite Ec, H, <- E. split; reflexivity.
  - exists []. split; reflexivity.
Qed.

Lemma trimStart_head (s : text) :
  trimStart s <> [] -> is_space (hd 32 (trimStart s)) = false.
Proof.
  induction s as [|c s IH]; [intros H; contradiction|].
  cbn [trimStart]. destruct (is_space c) eqn:Ec; [exact IH|].
  intros _. exact Ec.
Qed.

Lemma last_spaces (ws : text) :
  forallb is_space ws = true -> is_space (last ws 32) = true.
Proof.
  induction ws as [|c [|c2 ws] IH]; intros H; [reflexivity|..].
  - cbn in H |- *. rewrite andb_true_r in H. exact H.
  - cbn [forallb] in H. apply andb_true_iff in H. destruct H as [_ H].
    apply IH, H.
Qed.

(** A trimmed text is empty or has no whitespace at either end. *)
Lemma trim_ends (s : text) :
  trim s = []
  \/ (is_space (hd 32 (trim s)) = false /\ is_space (last (trim s) 32) = false).
Proof.
  unfold trim. set (a := trimStart s).
  destruct (trimStart (rev a)) as [|c b] eqn:Eb; [left; reflexivity|right].
  assert (Hb : trimStart (rev a) <> []) by (rewrite Eb; discriminate).
  pose proof (trimStart_head (rev a) Hb) as Hh.
  destruct (trimStart_split (rev a)) as (ws & E & Hws).
  rewrite Eb in *. split.
  - rewrite hd_rev.
    assert (El : last (c :: b) 32 = last (rev a) 32)
      by (rewrite E; symmetry; apply last_append; discriminate).
    rewrite El, <- hd_rev, rev_involutive.
    apply trimStart_head. intros Ha. fold a in Ha. rewrite Ha in E.
    destruct ws; discriminate.
  - rewrite <- hd_rev, rev_involutive. exact Hh.
Qed.

(** A text that ends with a character other than whitespace does not trim
    to the empty text. *)
Lemma trim_not_nil (s : text) :
  is_space (last s 32) = false -> trim s <> [].
Proof.
  intros Hl. unfold trim.
  destruct (trimStart_split s) as (ws & E & Hws).
  assert (Ha : trimStart s <> []).
  { intros Ha. rewrite Ha, app_nil_r in E. subst ws.
    rewrite last_spaces in Hl by assumption. discriminate. }
  assert (El : last (trimStart s) 32 = last s 32)
    by (rewrite E at 2; symmetry; apply last_append; assumption).
  rewrite trimStart_fixed by (rewrite hd_rev, El; exact Hl).
  rewrite rev_involutive. exact Ha.
Qed.

Lemma match_data_some (s r : text) :
  match_data s = Some r -> exists pre, s = pre ++ marker ++ r.
Proof.
  induction s as [|c s IH]; rewrite match_data_unfold.
  - destruct (strip_prefix marker []) eqn:E; [|discriminate].
    intros H; injection H as ->. apply strip_prefix_spec in E.
    exists []. exact E.
  - destruct (strip_prefix marker (c :: s)) eqn:E.
    + intros H; injection H as ->. apply strip_prefix_spec in E.
      exists []. exact E.
    + intros H. destruct (IH H) as [pre Hp]. exists (c :: pre).
      rewrite Hp. reflexivity.
Qed.

(** X8. A payload is never empty and never starts or ends with
    whitespace. *)
Theorem payload_trimmed_not_empty (part data : text) :
  payload part = Some data ->
  data <> []
  /\ is_space (hd 32 data) = false
  /\ is_space (last data 32) = false.
Proof.
  unfold payload. intros H.
  destruct (trim_ends part) as [E|[_ Hl]]; [rewrite E in H; discriminate|].
  destruct (trim part) as [|c line] eqn:El; [discriminate|].
  destruct (match_data (c :: line)) as [m1|] eqn:Em; [|discriminate].
  injection H as <-.
  destruct (match_data_some _ _ Em) as [pre Hp].
  assert (Hm : is_space (last m1 32) = false).
  { destruct m1 as [|x m1].
    - rewrite Hp, app_nil_r, last_append in Hl by discriminate.
      discriminate.
    - rewrite Hp, app_assoc, last_append in Hl by discriminate. exact Hl. }
  pose proof (trim_not_nil m1 Hm) as Hne.
  split; [exact Hne|].
  destruct (trim_ends m1) as [E|H]; [contradiction|exact H].
Qed.

Lemma payload_trimmed_not_empty_witness :
  u16 "x  y" <> []
  /\ is_space (hd 32 (u16 "x  y")) = false
  /\ is_space (last (u16 "x  y") 32) = false.
Proof.
  apply (payload_trimmed_not_empty (u16 " id: 1 data:   x  y  ")).
  reflexivity.
Defined.

(** ** Counting and composing *)

Lemma forward_at_most_one (data : text) :
  (length (outbound (forward data)) <= 1)%nat.
Proof.
  unfold forward. destruct (JSON_parse data) as [parsed|]; [|cbn; lia].
  destruct (delta_content parsed) as [[v|]|]; try (cbn; lia).
  destruct (truthy (Some v)); cbn; lia.
Qed.

Lemma handle_parts_at_most_one_each (parts : list text) :
  (length (outbound (fst (handle_parts parts))) <= length parts)%nat.
Proof.
  induction parts as [|p parts IH]; [cbn; lia|].
  cbn [handle_parts]. unfold handle_part at 1.
  destruct (payload p) as [data|].
  - destruct (text_eqb data SENTINEL); [cbn; lia|].
    destruct (handle_parts parts) as [w r]. cbn [fst length] in *.
    rewrite outbound_app, length_app.
    pose proof (forward_at_most_one data). lia.
  - destruct (handle_parts parts) as [w r]. cbn [fst length app] in *. lia.
Qed.

(** X9. A session never sends more events than the decoded text has
    complete frames, plus the one that ends it. *)
Theorem events_bounded_by_frames (key : text) (diag : outcome text)
    (reads : list read) :
  key <> [] ->
  (length (outbound (handler (streaming key reads diag) POST))
   <= length (frames (decoded reads)) + 1)%nat.
Proof.
  intros Hkey. rewrite handler_streaming by assumption.
  rewrite outbound_app. cbn [outbound headers app].
  rewrite read_loop_spec by reflexivity. fold (decoded reads). cbn [app].
  pose proof (handle_parts_at_most_one_each (frames (decoded reads))) as H.
  destruct (handle_parts (frames (decoded reads))) as [w [|]];
    cbn [fst] in H; [lia|].
  rewrite outbound_app, length_app.
  destruct (upstream_failure reads); cbn; lia.
Qed.

Lemma events_bounded_by_frames_witness :
  (length (outbound (handler (streaming (u16 "sk-test")
                                [Resolved (Some stream_A_B_DONE)]
                                (Resolved [])) POST))
   <= length (frames (decoded [Resolved (Some stream_A_B_DONE)])) + 1)%nat.
Proof. apply events_bounded_by_frames. discriminate. Defined.

(** X11. Once a frame with the sentinel has been handled, nothing that
    comes later in the stream counts: two streams whose frames agree up to
    that frame get the same response, whatever follows it and whether or
    not a later read fails. *)
Theorem nothing_after_sentinel_counts (key : text) (diag : outcome text)
    (reads reads' : list read) (before after after' : list text)
    (part : text) :
  key <> [] ->
  payload part = Some SENTINEL ->
  snd (handle_parts before) = false ->
  frames (decoded reads) = before ++ part :: after ->
  frames (decoded reads') = before ++ part :: after' ->
  handler (streaming key reads diag) POST =
    headers ++ fetch_call OPENAI_URL key ::
    fst (handle_parts before) ++ write_done
  /\ handler (streaming key reads' diag) POST =
     handler (streaming key reads diag) POST.
Proof.
  intros Hkey Hp Hb Hf Hf'.
  assert (E : forall rs tail,
            frames (decoded rs) = before ++ part :: tail ->
            handler (streaming key rs diag) POST =
              headers ++ fetch_call OPENAI_URL key ::
              fst (handle_parts before) ++ write_done).
  { intros rs tail Hrs. rewrite handler_streaming by assumption.
    rewrite read_loop_spec by reflexivity. fold (decoded rs). cbn [app].
    rewrite Hrs, handle_parts_app.
    destruct (handle_parts before) as [w r]. cbn [snd fst] in *. subst r.
    cbn [handle_parts]. unfold handle_part. rewrite Hp, text_eqb_refl.
    reflexivity. }
  split; [apply (E reads after Hf)|].
  rewrite (E reads after Hf), (E reads' after' Hf'). reflexivity.
Qed.

Lemma nothing_after_sentinel_counts_witness :
  let reads := [Resolved (Some stream_A_B_DONE)] in
  let reads' := [Resolved (Some (stream_A_B_DONE ++ b8q "data: late" ++ LFLF));
                 Rejected (u16 "terminated")] in
  let before := [u16q "data: {'choices':[{'delta':{'content':'A'}}]}";
                 u16q "data: {'choices':[{'delta':{'content':'B'}}]}"] in
  handler (streaming (u16 "sk-test") reads (Resolved [])) POST =
    headers ++ fetch_call OPENAI_URL (u16 "sk-test") ::
    fst (handle_parts before) ++ write_done
  /\ handler (streaming (u16 "sk-test") reads' (Resolved [])) POST =
     handler (streaming (u16 "sk-test") reads (Resolved [])) POST.
Proof.
  apply (nothing_after_sentinel_counts _ _ _ _ _ [] [u16 "data: late"]
           (u16 "data: [DONE]"));
    [discriminate|reflexivity|reflexivity|reflexivity|reflexivity].
Defined.




(** ** Strings through [JSON.stringify] and [JSON.parse] *)

Lemma lex_silent (st st' : lexstate) (c : N) (r : text) :
  lex_step st c = Some (st', []) -> lex st (c :: r) = lex st' r.
Proof.
  intros H. cbn [lex]. rewrite H. destruct (lex st' r); reflexivity.
Qed.

Lemma lex_emit (st st' : lexstate) (c : N) (toks : list token) (r : text) :
  lex_step st c = Some (st', toks) ->
  lex st (c :: r) =
    match lex st' r with
    | Some more => Some (toks ++ more)
    | None => None
    end.
Proof. intros H. cbn [lex]. rewrite H. reflexivity. Qed.

Lemma hex_value_digit (d : N) : d < 16 -> hex_value (hex_digit d) = Some d.
Proof.
  intros H.
  assert (E : d = 0 \/ d = 1 \/ d = 2 \/ d = 3 \/ d = 4 \/ d = 5 \/ d = 6
              \/ d = 7 \/ d = 8 \/ d = 9 \/ d = 10 \/ d = 11 \/ d = 12
              \/ d = 13 \/ d = 14 \/ d = 15) by lia.
  repeat (destruct E as [->|E]; [reflexivity|]). subst d. reflexivity.
Qed.

Lemma lex_unicode_escape (c : N) (acc rest : text) :
  c < 65536 ->
  lex (LStr acc) (unicode_escape c ++ rest) = lex (LStr (c :: acc)) rest.
Proof.
  intros H. unfold unicode_escape. cbn [app].
  rewrite (lex_silent (LStr acc) (LEsc acc)) by reflexivity.
  rewrite (lex_silent (LEsc acc) (LHex acc 4 0)) by reflexivity.
  rewrite (lex_silent (LHex acc 4 0) (LHex acc 3 (16 * 0 + c / 4096)))
    by (cbn [lex_step]; rewrite hex_value_digit by lia_div; reflexivity).
  rewrite (lex_silent _ (LHex acc 2 (16 * (16 * 0 + c / 4096) + (c / 256) mod 16)))
    by (cbn [lex_step]; rewrite hex_value_digit by lia_div; reflexivity).
  rewrite (lex_silent _ (LHex acc 1
             (16 * (16 * (16 * 0 + c / 4096) + (c / 256) mod 16)
              + (c / 16) mod 16)))
    by (cbn [lex_step]; rewrite hex_value_digit by lia_div; reflexivity).
  rewrite (lex_silent _ (LStr (c :: acc))); [reflexivity|].
  cbn [lex_step]. rewrite hex_value_digit by lia_div.
  do 4 f_equal. lia_div.
Qed.

Lemma lex_literal (c : N) (acc rest : text) :
  32 <= c -> c <> 34 -> c <> 92 ->
  lex (LStr acc) (c :: rest) = lex (LStr (c :: acc)) rest.
Proof.
  intros H1 H2 H3. apply lex_silent. cbn [lex_step].
  destruct (N.eqb_spec c 34); [contradiction|].
  destruct (N.eqb_spec c 92); [contradiction|].
  destruct (N.ltb_spec c 32); [lia|reflexivity].
Qed.

Lemma lex_short_escape (x c : N) (acc rest : text) :
  escape_char x = Some c -> x <> 117 ->
  lex (LStr acc) (92 :: x :: rest) = lex (LStr (c :: acc)) rest.
Proof.
  intros H Hx.
  rewrite (lex_silent (LStr acc) (LEsc acc)) by reflexivity.
  apply lex_silent. cbn [lex_step].
  destruct (N.eqb_spec x 117); [contradiction|]. rewrite H. reflexivity.
Qed.

Lemma lex_quote_unit (c : N) (acc rest : text) :
  c < 65536 ->
  lex (LStr acc) (quote_unit c ++ rest) = lex (LStr (c :: acc)) rest.
Proof.
  intros H. unfold quote_unit.
  destruct (N.eqb_spec c 8) as [->|]; [apply lex_short_escape; [reflexivity|discriminate]|].
  destruct (N.eqb_spec c 9) as [->|]; [apply lex_short_escape; [reflexivity|discriminate]|].
  destruct (N.eqb_spec c 10) as [->|]; [apply lex_short_escape; [reflexivity|discriminate]|].
  destruct (N.eqb_spec c 12) as [->|]; [apply lex_short_escape; [reflexivity|discriminate]|].
  destruct (N.eqb_spec c 13) as [->|]; [apply lex_short_escape; [reflexivity|discriminate]|].
  destruct (N.eqb_spec c 34) as [->|]; [apply lex_short_escape; [reflexivity|discriminate]|].
  destruct (N.eqb_spec c 92) as [->|]; [apply lex_short_escape; [reflexivity|discriminate]|].
  destruct ((c <? 32) || is_lead c || is_trail c) eqn:E.
  - apply lex_unicode_escape, H.
  - apply orb_false_iff in E. destruct E as [E _].
    apply orb_false_iff in E. destruct E as [E _].
    apply N.ltb_ge in E. apply lex_literal; assumption.
Qed.

Lemma lex_quote_units (s : text) :
  well_formed s = true ->
  forall acc rest,
    lex (LStr acc) (quote_units s ++ rest) = lex (LStr (rev s ++ acc)) rest.
Proof.
  assert (H : forall n (s : text), (length s <= n)%nat ->
            well_formed s = true ->
            forall acc rest,
              lex (LStr acc) (quote_units s ++ rest) =
              lex (LStr (rev s ++ acc)) rest).
  { induction n as [|n IH]; intros [|c r] Hlen Hwf acc rest;
      try reflexivity; cbn [length] in Hlen; [lia|].
    unfold well_formed in Hwf. cbn [forallb] in Hwf.
    apply andb_true_iff in Hwf. destruct Hwf as [Hc Hr].
    apply N.ltb_lt in Hc.
    assert (Hone : lex (LStr acc) ((quote_unit c ++ quote_units r) ++ rest) =
                   lex (LStr (rev (c :: r) ++ acc)) rest).
    { rewrite <- app_assoc, lex_quote_unit by assumption.
      rewrite IH by (assumption || lia).
      cbn [rev]. rewrite <- app_assoc. reflexivity. }
    cbn [quote_units]. destruct (is_lead c) eqn:El; [|exact Hone].
    destruct r as [|c2 r2].
    { cbn [quote_units] in Hone. rewrite app_nil_r in Hone. exact Hone. }
    destruct (is_trail c2) eqn:Et; [|exact Hone].
    cbn [forallb] in Hr. apply andb_true_iff in Hr. destruct Hr as [_ Hr2].
    unfold is_lead in El. unfold is_trail in Et.
    apply andb_true_iff in El, Et. destruct El as [El _], Et as [Et _].
    apply N.leb_le in El, Et.
    cbn [app]. rewrite !lex_literal by lia.
    rewrite IH by (assumption || (cbn [length] in Hlen; lia)).
    cbn [rev]. rewrite <- !app_assoc. reflexivity. }
  intros Hwf. apply (H (length s)); [lia|assumption].
Qed.

(** A quoted string lexes to one string token. *)
Lemma lex_QuoteJSONString (s rest : text) :
  well_formed s = true ->
  lex LStart (QuoteJSONString s ++ rest) =
    match lex LStart rest with
    | Some more => Some (TString s :: more)
    | None => None
    end.
Proof.
  intros H. unfold QuoteJSONString. cbn [app].
  rewrite (lex_silent LStart (LStr [])) by reflexivity.
  rewrite <- app_assoc, lex_quote_units by assumption.
  cbn [app lex lex_step]. change (34 =? 34) with true. cbv iota.
  rewrite app_nil_r, rev_involutive.
  destruct (lex LStart rest); reflexivity.
Qed.

Lemma well_formed_u16 (s : string) : well_formed (u16 s) = true.
Proof.
  induction s as [|a s IH]; [reflexivity|].
  unfold well_formed in *. cbn [u16 forallb]. rewrite IH, andb_true_r.
  apply N.ltb_lt. pose proof (N_ascii_bounded a). lia.
Qed.

(** What the consumer's [JSON.parse] makes of the handler's
    [JSON.stringify]. *)
Lemma parse_stringify_member (key : string) (value : text) :
  well_formed value = true ->
  JSON_parse (stringify_member key value) =
    Some (JObject [(u16 key, JString value)]).
Proof.
  intros H. unfold JSON_parse, stringify_member.
  change (u16 "{" ++ QuoteJSONString (u16 key) ++ u16 ":"
            ++ QuoteJSONString value ++ u16 "}")
    with (123 :: (QuoteJSONString (u16 key) ++ 58 ::
                   (QuoteJSONString value ++ [125]))).
  rewrite (lex_emit LStart LStart 123 [TLBrace]) by reflexivity.
  rewrite lex_QuoteJSONString by apply well_formed_u16.
  rewrite (lex_emit LStart LStart 58 [TColon]) by reflexivity.
  rewrite lex_QuoteJSONString by assumption.
  reflexivity.
Qed.

(** X13. A string that went through [JSON.stringify] is read back by
    [JSON.parse] as the same string: escapes, control characters and
    unpaired surrogates included. *)
Theorem JSON_string_round_trip (s : text) :
  well_formed s = true ->
  JSON_parse (QuoteJSONString s) = Some (JString s).
Proof.
  intros H. unfold JSON_parse.
  rewrite <- (app_nil_r (QuoteJSONString s)).
  rewrite lex_QuoteJSONString by assumption. reflexivity.
Qed.

Lemma JSON_string_round_trip_witness :
  JSON_parse (QuoteJSONString [65; 10; 34; 0xD83D; 0xDE00; 0xD800; 1; 92]) =
    Some (JString [65; 10; 34; 0xD83D; 0xDE00; 0xD800; 1; 92]).
Proof. apply JSON_string_round_trip. reflexivity. Defined.

(** ** What the consumer makes of the handler's messages *)

Lemma stringify_member_not_nil (key : string) (value : text) :
  stringify_member key value <> [].
Proof. discriminate. Qed.

Lemma onmessage_member (st : consumer) (key : string) (value : text) :
  well_formed value = true ->
  onmessage st (stringify_member key value) =
    match lookup (u16 "chunk") [(u16 key, JString value)] with
    | Some (JString c) => append_output st c
    | _ => st
    end.
Proof.
  intros H. unfold onmessage.
  destruct (stringify_member key value) as [|c r] eqn:E;
    [exfalso; revert E; apply stringify_member_not_nil|].
  rewrite <- E, parse_stringify_member by assumption.
  cbn [truthy andb prop]. 
  destruct (lookup (u16 "chunk") [(u16 key, JString value)]) as [[]|];
    reflexivity.
Qed.

Lemma chunk_message_appended_aux (st : consumer) (t : text) :
  well_formed t = true ->
  onmessage st (stringify_member "chunk" t) = append_output st t.
Proof. intros H. rewrite onmessage_member by assumption. reflexivity. Qed.

(** X14. The message the handler writes for a string chunk makes the
    consumer append exactly that string to its buffer and show it. *)
Theorem chunk_message_appended (st : consumer) (t : text) :
  well_formed t = true ->
  onmessage st (stringify_member "chunk" t) = append_output st t.
Proof. apply chunk_message_appended_aux. Qed.

Lemma chunk_message_appended_witness :
  onmessage submitted (stringify_member "chunk" (u16 "Hi" ++ [10])) =
    append_output submitted (u16 "Hi" ++ [10]).
Proof. apply chunk_message_appended. reflexivity. Defined.

(** X15. Whatever its text, the message the handler writes for an error
    leaves the consumer unchanged. *)
Theorem error_message_ignored (st : consumer) (msg : text) :
  well_formed msg = true ->
  onmessage st (stringify_member "error" msg) = st.
Proof. intros H. rewrite onmessage_member by assumption. reflexivity. Qed.

Lemma error_message_ignored_witness :
  onmessage submitted (stringify_member "error" (u16 "Method Not Allowed")) =
    submitted.
Proof. apply error_message_ignored. reflexivity. Defined.

Lemma messages_app (a b : list effect) :
  messages (a ++ b) =
    match messages a, messages b with
    | Some x, Some y => Some (x ++ y)
    | _, _ => None
    end.
Proof.
  induction a as [|x a IH].
  - cbn. destruct (messages b); reflexivity.
  - cbn [app messages]. rewrite IH.
    destruct x as [| |w| |]; try reflexivity.
    destruct (dispatched w), (messages a), (messages b); reflexivity.
Qed.

Lemma messages_preamble (pre : list effect) :
  forallb preamble pre = true -> messages pre = Some [].
Proof.
  induction pre as [|x pre IH]; [reflexivity|].
  cbn [forallb]. intros H. apply andb_true_iff in H. destruct H as [Hx H].
  destruct x; try discriminate; cbn [messages]; auto.
Qed.

Lemma messages_write_chunks (ts : list text) :
  messages (write_chunks (map JString ts)) =
    Some (map (stringify_member "chunk") ts).
Proof.
  induction ts as [|t ts IH]; [reflexivity|].
  change (messages (write (sse_chunk (JString t))
                      :: write_chunks (map JString ts)) =
          Some (stringify_member "chunk" t
                  :: map (stringify_member "chunk") ts)).
  cbn [messages dispatched]. rewrite IH. reflexivity.
Qed.

Lemma fold_chunk_messages (ts : list text) :
  forallb well_formed ts = true ->
  forall st,
    c_buffer (fold_left onmessage (map (stringify_member "chunk") ts) st) =
      c_buffer st ++ concat ts
    /\ (output st = c_buffer st ->
        output (fold_left onmessage (map (stringify_member "chunk") ts) st) =
          c_buffer st ++ concat ts)
    /\ loading (fold_left onmessage (map (stringify_member "chunk") ts) st) =
         loading st
    /\ aborted (fold_left onmessage (map (stringify_member "chunk") ts) st) =
         aborted st.
Proof.
  induction ts as [|t ts IH]; intros H st.
  - cbn. rewrite app_nil_r. auto.
  - cbn [forallb] in H. apply andb_true_iff in H. destruct H as [Ht Hts].
    cbn [map fold_left concat]. rewrite chunk_message_appended_aux by assumption.
    destruct (IH Hts (append_output st t)) as (Hb & Ho & Hl & Ha).
    cbn [append_output c_buffer output loading aborted] in *.
    rewrite Hb, Hl, Ha, <- app_assoc. repeat split; try reflexivity.
    intros _. rewrite Ho by reflexivity. rewrite <- app_assoc. reflexivity.
Qed.

(** X16. After a session in which the handler sent string chunks and then
    the done message, the form shows the chunks in order followed by the
    text of the done message, which [onmessage] cannot parse and appends as
    it is; the form is no longer loading. *)
Theorem session_output_ends_with_sentinel (pre : list effect) (ts : list text) :
  forallb preamble pre = true ->
  forallb well_formed ts = true ->
  exists datas,
    messages (pre ++ write_chunks (map JString ts) ++ write_done) = Some datas
    /\ consume datas =
         mkConsumer (concat ts ++ SENTINEL) (concat ts ++ SENTINEL) false false.
Proof.
  intros Hpre Hts.
  exists (map (stringify_member "chunk") ts ++ [SENTINEL]). split.
  - rewrite !messages_app, messages_preamble, messages_write_chunks
      by assumption.
    reflexivity.
  - unfold consume. rewrite fold_left_app.
    destruct (fold_chunk_messages ts Hts submitted) as (Hb & Ho & Hl & Ha).
    specialize (Ho eq_refl).
    destruct (fold_left onmessage (map (stringify_member "chunk") ts) submitted)
      as [b o l a].
    cbn [c_buffer output loading aborted submitted app] in *. subst.
    reflexivity.
Qed.

Lemma session_output_ends_with_sentinel_witness :
  exists datas,
    messages
      (handler (streaming (u16 "sk-test") [Resolved (Some stream_A_B_DONE)]
                  (Resolved [])) POST) = Some datas
    /\ consume datas =
         mkConsumer (u16 "AB[DONE]") (u16 "AB[DONE]") false false.
Proof.
  apply (session_output_ends_with_sentinel
           (headers ++ [fetch_call OPENAI_URL (u16 "sk-test")])
           [u16 "A"; u16 "B"]);
    reflexivity.
Defined.

(** X17. Whatever messages arrive, the consumer only ever appends to its
    buffer, what it shows stays equal to the buffer, and [onmessage] never
    touches the loading flag or the abort state. *)
Theorem consumer_buffer_append_only (datas : list text) (st : consumer) :
  output st = c_buffer st ->
  let st' := fold_left onmessage datas st in
  output st' = c_buffer st'
  /\ (exists t, c_buffer st' = c_buffer st ++ t)
  /\ loading st' = loading st
  /\ aborted st' = aborted st.
Proof.
  revert st; induction datas as [|d datas IH]; intros st H; cbn zeta.
  - repeat split; try assumption. exists []. rewrite app_nil_r. reflexivity.
  - cbn [fold_left].
    assert (Hstep : output (onmessage st d) = c_buffer (onmessage st d)
                    /\ (exists t, c_buffer (onmessage st d) = c_buffer st ++ t)
                    /\ loading (onmessage st d) = loading st
                    /\ aborted (onmessage st d) = aborted st).
    { unfold onmessage.
      destruct (JSON_parse match d with [] => u16 "{}" | _ :: _ => d end)
        as [parsed|].
      - destruct (truthy (Some parsed) && is_string (prop parsed "chunk")).
        + destruct (prop parsed "chunk") as [[| | |c| |]|];
            try (repeat split; [assumption|exists []; rewrite app_nil_r; reflexivity]).
          repeat split. exists c. reflexivity.
        + repeat split; [assumption|exists []; rewrite app_nil_r; reflexivity].
      - repeat split. exists d. reflexivity. }
    destruct Hstep as (Ho & [t Ht] & Hl & Ha).
    destruct (IH (onmessage st d) Ho) as (Ho' & [t' Ht'] & Hl' & Ha').
    repeat split; try congruence.
    exists (t ++ t'). rewrite Ht', Ht, app_assoc. reflexivity.
Qed.

Lemma consumer_buffer_append_only_witness :
  let st' := fold_left onmessage [u16q "{'chunk':'A'}"; u16 "[DONE]"]
               submitted in
  output st' = c_buffer st'
  /\ (exists t, c_buffer st' = c_buffer submitted ++ t)
  /\ loading st' = loading submitted
  /\ aborted st' = aborted submitted.
Proof. apply consumer_buffer_append_only. reflexivity. Defined.

(** ** The token estimate *)

(** X18. The token estimate the form displays is always between 100 and
    800, and a longer output never gets a smaller estimate. *)
Theorem approx_tokens_bounded_monotone (o o' : text) :
  (length o <= length o')%nat ->
  100 <= approx_tokens o <= 800
  /\ approx_tokens o <= approx_tokens o'.
Proof.
  intros H. unfold approx_tokens.
  assert (Hd : (N.of_nat (length o) + 3) / 4 <= (N.of_nat (length o') + 3) / 4)
    by lia_div.
  lia.
Qed.

Lemma approx_tokens_bounded_monotone_witness :
  100 <= approx_tokens (u16 "short") <= 800
  /\ approx_tokens (u16 "short") <= approx_tokens (repeat 65 1000).
Proof. apply approx_tokens_bounded_monotone. cbn. lia. Defined.
